(** * PRadEpElasGen: radiatively corrected elastic e-p cross sections

  A shallow embedding of [PRadEpElasGen.cpp] (unpolarized elastic e-p
  generator beyond the ultra-relativistic approximation) and the
  properties of its cross-section query [GetXSdQsq].

  The C++ code computes on [double].  Every function of the source is
  embedded once, over an interface [arith] of the arithmetic it uses, and
  the interface is instantiated twice:
  - [FA]: IEEE-754 binary64 ([PrimFloat]), the arithmetic the program
    runs on; it evaluates the embedding on concrete inputs;
  - [RA]: the real numbers, the arithmetic the formulas are written in;
    it carries the algebraic and order properties.
  Properties that only depend on how the code composes its operations
  are proved for every instance of the interface. *)

From Stdlib Require Import QArith ZArith List Bool.
From Stdlib Require Import Reals Lra Psatz.
From Stdlib Require Import Floats.
Import ListNotations.

(** ** The arithmetic of [double] *)

Record arith : Type := Arith {
num :> Type;
lit : Q -> num;               (* a decimal literal of the source *)
fadd : num -> num -> num;
fsub : num -> num -> num;
fmul : num -> num -> num;
fdiv : num -> num -> num;
fopp : num -> num;
fsqrt : num -> num;           (* sqrt of <cmath> *)
fltb : num -> num -> bool     (* operator< *)
}.

Declare Scope num_scope.
Delimit Scope num_scope with num.
Notation "x + y" := (fadd _ x y) : num_scope.
Notation "x - y" := (fsub _ x y) : num_scope.
Notation "x * y" := (fmul _ x y) : num_scope.
Notation "x / y" := (fdiv _ x y) : num_scope.
Notation "- x" := (fopp _ x) : num_scope.
Notation "x <? y" := (fltb _ x y) : num_scope.
Notation "' q" := (lit _ q%Q)
(at level 1, q constr at level 0, format "' q") : num_scope.

(** The remaining functions of <cmath> that the source calls. *)
Record libm (A : arith) : Type := Libm {
flog : A -> A;
fexp : A -> A;
fcos : A -> A
}.
Arguments flog {A}. Arguments fexp {A}. Arguments fcos {A}.

(** ** The [cana] library

  [canalib.h] is not part of the sources at hand.  Its physical constants
  and its special-function and quadrature routines are taken as
  parameters; [clamp] is modelled from its description. *)
Module cana.

Record consts (A : arith) : Type := Consts {
  alpha : A;
  pi : A;
  ele_mass : A;
  mu_mass : A;
  tau_mass : A;
  proton_mass : A;
  hbarc2 : A
}.
Arguments alpha {A}. Arguments pi {A}. Arguments ele_mass {A}.
Arguments mu_mass {A}. Arguments tau_mass {A}.
Arguments proton_mass {A}. Arguments hbarc2 {A}.

Record funs (A : arith) : Type := Funs {
  spence : A -> A;
  minus_pow : Z -> A;
  legendre_nodes : Type;
  calc_legendre_nodes : Z -> legendre_nodes;
  gauss_quad : legendre_nodes -> (A -> A) -> A -> A -> A
}.
Arguments spence {A}. Arguments minus_pow {A}.
Arguments legendre_nodes {A}. Arguments calc_legendre_nodes {A}.
Arguments gauss_quad {A}.

(** Modelled from the spec: [cana::clamp(val, min, max)] is declared in
    [canalib.h], which is missing.  The spec describes
    [clamp(x, x, hi)] as clamping [x] into [[-inf, hi]], "clamped to not
    exceed" [hi]; [clamp] is the usual three-way clamp with that
    behaviour. *)
Definition clamp {A : arith} (val min max : A) : A :=
  if (val <? min)%num then min
  else if (max <? val)%num then max
  else val.

End cana.

(** ** The generator *)

(** The configuration held by a [PRadEpElasGen] object (its constructor
  stores the five arguments unchanged). *)
Record PRadEpElasGen (A : arith) : Type := Build_PRadEpElasGen {
v_min : A;
v_cut : A;
min_bins : Z;
t_prec : A;
v_prec : A
}.
Arguments v_min {A}. Arguments v_cut {A}. Arguments min_bins {A}.
Arguments t_prec {A}. Arguments v_prec {A}.

(** The output parameters of [CalcVphIR]. *)
Record VphIR (A : arith) : Type := Build_VphIR {
sig_born : A;
sig_AMM : A;
delta_VR : A;
delta_vac : A;
delta_inf : A
}.
Arguments sig_born {A}. Arguments sig_AMM {A}. Arguments delta_VR {A}.
Arguments delta_vac {A}. Arguments delta_inf {A}.

(** A call [cana::gauss_quad(nodes, fn, a, b, args...)]: the integrand
  with its trailing arguments bound, and the two integration limits. *)
Record quad_call (A : arith) : Type := Build_quad_call {
integrand : A -> A;
lower : A;
upper : A
}.
Arguments integrand {A}. Arguments lower {A}. Arguments upper {A}.

Section Generator.

Variable A : arith.
Variable C : cana.consts A.
Variable LM : libm A.
Variable Fn : cana.funs A.

Local Open Scope num_scope.
Local Abbreviation sqrt := (fsqrt A).
Local Abbreviation log := (flog LM).
Local Abbreviation exp := (fexp LM).
Local Abbreviation cos := (fcos LM).

(** [std::max(a, b)] is [(a < b) ? b : a]. *)
Definition std_max (a b : A) : A := if a <? b then b else a.

(** *** Helper constants and functions *)

Definition m : A := cana.ele_mass C.
Definition m2 : A := m * m.
Definition M : A := cana.proton_mass C.
Definition M2 : A := M * M.
Definition twopi : A := '2 * cana.pi C.
Definition alp_pi : A := cana.alpha C / cana.pi C.
Definition pi2 : A := cana.pi C * cana.pi C.
Definition alp2 : A := cana.alpha C * cana.alpha C.
Definition alp3 : A := alp2 * cana.alpha C.
(* convert MeV^-2 to nbarn ([unit] in the source) *)
Definition unit_nb : A := cana.hbarc2 C * '1e7.

Definition pow2 (val : A) : A := val * val.
Definition pow3 (val : A) : A := val * val * val.
Definition pow4 (val : A) : A := let val2 := pow2 val in val2 * val2.

Definition t_max (Q2 v : A) : A :=
  ('2 * M2 * Q2 + v * (Q2 + v + sqrt (pow2 (Q2 + v) + '4 * M2 * Q2)))
  / ('2 * (M2 + v)).

Definition t_min (Q2 v : A) : A :=
  ('2 * M2 * Q2 + v * (Q2 + v - sqrt (pow2 (Q2 + v) + '4 * M2 * Q2)))
  / ('2 * (M2 + v)).

Definition vt_min (Q2 t v : A) : A :=
  let v_t := std_max ((t - Q2) * (sqrt t + sqrt ('4 * M2 + t)) / '2 / sqrt t)
                     ((t - Q2) * (sqrt t - sqrt ('4 * M2 + t)) / '2 / sqrt t) in
  std_max v v_t.

Definition vt_max (S Q2 t : A) : A :=
  std_max (S - Q2 * S / t) (S + t - Q2 - S * t / Q2).

(** *** Form factors and structure functions *)

Definition GEp1 : list A := ['1; '2.90966; - '1.11542229; '3.866171e-2; '0; '0].
Definition GEp2 : list A := ['1; '14.5187212; '40.88333; '99.999998; '4.579e-5; '10.3580447].
Definition GMp1 : list A := ['1; - '1.43573; '1.19052066; '2.5455841e-1; '0; '0].
Definition GMp2 : list A := ['1; '9.70703681; '3.7357e-4; '6.0e-8; '9.9527277; '12.7977739].

(** The table [x[0] = 1, x[i] = x[i-1]*tau] of the first loop. *)
Fixpoint x_table (n : nat) (xi tau : A) : list A :=
  match n with
  | O => []
  | S k => xi :: x_table k (xi * tau) tau
  end.

(** The accumulation [acc = 0.; for i: acc += coef[i]*x[i]] of the second
    loop. *)
Definition poly_sum (coef x : list A) : A :=
  fold_left (fun acc cx => acc + fst cx * snd cx) (combine coef x) '0.

(** The argument at which [GetEMFF] evaluates its polynomials. *)
Definition GetEMFF_tau (Q2 : A) : A := - Q2 / '4 / M2 / '1e6.

Definition GetEMFF (Q2 : A) : A * A :=
  (* convert MeV^2 to GeV^2 *)
  let tau := GetEMFF_tau Q2 in
  let x := x_table 6 '1 tau in
  let GEp_nu := poly_sum GEp1 x in
  let GEp_de := poly_sum GEp2 x in
  let GMp_nu := poly_sum GMp1 x in
  let GMp_de := poly_sum GMp2 x in
  (GEp_nu / GEp_de, '2.792782 * GMp_nu / GMp_de).

Definition GetHadStrFunc (Q2 : A) : A * A :=
  let '(GE, GM) := GetEMFF Q2 in
  let tau := Q2 / '4 / M2 in
  ('4 * tau * M2 * GM * GM,
   '4 * M2 * (GE * GE + tau * GM * GM) / ('1 + tau)).

(** *** Born cross section *)

Definition SigmaBorn (S Q2 : A) : A :=
  let '(F01, F02) := GetHadStrFunc Q2 in
  (* equation (3) ~ (8) *)
  let X := S - Q2 in
  let lambda_S := S * S - '4 * m2 * M2 in
  let theta_B1 := Q2 - '2 * m2 in
  let theta_B2 := '1 / ('2 * M2) * (S * X - M2 * Q2) in
  twopi * alp2 / lambda_S / Q2 / Q2 * (F01 * theta_B1 + F02 * theta_B2).

(** *** Virtual-photon and infrared part *)

(** [S_phi], equation (35).  The lambda [S_term] reads the current values
    of [i_sign], [gamma_i] and [gamma_jk]; the three loops run over
    [i = 1], [j = 1, 2, 3] and [k = 1]. *)
Definition S_phi (s l a b : A) : A :=
  let delta : list A := ['1; '1; - '1; - '1] in
  let sqrt_l := sqrt l in
  let sqrt_b := sqrt b in
  let D := (s + a) * (l * a - s * b) + pow2 (l + b) / '4 in
  let gamma_u := (sqrt (b + l) - sqrt_b) / sqrt_l in
  let gamma : list A := [ - (sqrt_b - sqrt_l) / (b - l);
                          (sqrt_b + sqrt_l) / (b - l) ] in
  let S_term (i_sign gamma_i gamma_jk g : A) : A :=
    cana.spence Fn ((gamma_i - g) / (gamma_i - gamma_jk))
    + cana.spence Fn ((g + i_sign) / (gamma_jk + i_sign)) in
  let res :=
    fold_left (fun res i =>
      let i_sign := cana.minus_pow Fn i in
      let gamma_i := nth (Z.to_nat (i - 1)) gamma '0 in
      fold_left (fun res j =>
        let delta_j := nth (Z.to_nat (j - 1)) delta '0 in
        let a_j := s - delta_j * sqrt_l in
        let tau_j := - a * sqrt_l + delta_j * (b - l) / '2
                     + cana.minus_pow Fn j * sqrt D in
        fold_left (fun res k =>
          let gamma_jk :=
            - (a_j * sqrt_b
               - cana.minus_pow Fn k * sqrt (b * a_j * a_j + tau_j * tau_j))
            / tau_j in
          res + i_sign * delta_j
                * (S_term i_sign gamma_i gamma_jk gamma_u
                   - S_term i_sign gamma_i gamma_jk (nth 0 gamma '0)))
          [1%Z] res)
        [1%Z; 2%Z; 3%Z] res)
      [1%Z] '0 in
  res * s / '2 / sqrt_l.

(** One lepton loop of the vacuum polarization, equation (41). *)
Definition delta_vac_term (Q2 vm : A) : A :=
  let vm2 := vm * vm in
  let vsqrt_lm := sqrt (Q2 * (Q2 + '4 * vm2)) in
  let vL_m := log ((vsqrt_lm + Q2) / (vsqrt_lm - Q2)) / vsqrt_lm in
  '2 / '3 * (Q2 + '2 * vm2) * vL_m - '10 / '9
  + '8 / '3 * vm2 / Q2 * ('1 - '2 * vm2 * vL_m).

(** The third parameter is named [v_min] in the source, as here. *)
Definition CalcVphIR (S Q2 v_min : A) : VphIR A :=
  (* substitute S - Q2 with X *)
  let X := S - Q2 in
  (* equation (27) ~ (34) *)
  let Q2_m := Q2 + '2 * m2 in
  let lambda_m := Q2 * (Q2 + '4 * m2) in
  let sqrt_lm := sqrt lambda_m in
  let L_m := log ((sqrt_lm + Q2) / (sqrt_lm - Q2)) / sqrt_lm in
  let lambda_S := S * S - '4 * m2 * M2 in
  let sqrt_lS := sqrt lambda_S in
  let L_S := log ((S + sqrt_lS) / (S - sqrt_lS)) / sqrt_lS in
  let lambda_X0 := X * X - '4 * m2 * M2 in
  let sqrt_lX0 := sqrt lambda_X0 in
  let L_X0 := log ((X + sqrt_lX0) / (X - sqrt_lX0)) / sqrt_lX0 in
  let a := (S * X - '2 * M2 * (Q2 - '2 * m2)) / '2 / M2 in
  let b := (Q2 * (S * X - M2 * Q2) - m2 * Q2 * (Q2 + '4 * M2)) / M2 in
  let v_max := '2 * Q2 * (lambda_S - Q2 * (S + m2 + M2))
               / (Q2 * (S + '2 * m2) + sqrt (lambda_S * lambda_m)) in
  let '(F01, F02) := GetHadStrFunc Q2 in
  (* equation (7), (8) *)
  let theta_B1 := Q2 - '2 * m2 in
  let theta_B2 := '1 / ('2 * M2) * (S * X - M2 * Q2) in
  (* equation (3) *)
  let sig_born := twopi * alp2 / lambda_S / Q2 / Q2
                  * (F01 * theta_B1 + F02 * theta_B2) in
  (* equation (40) *)
  let delta_VR := '2 * (Q2_m * L_m - '1) * log (v_max / m / M)
                  + (S * L_S + X * L_X0) / '2 + S_phi Q2_m lambda_m a b
                  + ('3 / '2 * Q2 + '4 * m2) * L_m - '2
                  - Q2_m / sqrt_lm
                    * (lambda_m * L_m * L_m / '2
                       + '2 * cana.spence Fn ('2 * sqrt_lm / (Q2 + sqrt_lm))
                       - pi2 / '2) in
  (* equation (41) *)
  let lepton_mass := [cana.ele_mass C; cana.mu_mass C; cana.tau_mass C] in
  let delta_vac :=
    fold_left (fun delta_vac vm => delta_vac + delta_vac_term Q2 vm)
              lepton_mass '0 in
  (* equation (42) *)
  let delta_inf := (Q2_m * L_m - '1) * log (v_max * v_max / S / X) in
  (* equation (38) *)
  let sig_AMM := alp3 * m2 * L_m * ('12 * M2 * F01 - (Q2 + '4 * M2) * F02)
                 / ('2 * M2 * Q2 * lambda_S) in
  Build_VphIR A sig_born sig_AMM delta_VR delta_vac delta_inf.

(** *** Bremsstrahlung cross sections *)

(** dsig/dQ2/dt/dv/dphik; [t = Q2 + tau*v/(1 + tau) = Q2 + R*tau]. *)
Definition SigmaBrem (v t phik S Q2 : A) : A :=
  let lambda_S := S * S - '4 * m2 * M2 in
  let R := Q2 + v - t in
  let X := S - R - t in
  let SmX := S - X in
  let SpX := S + X in
  let tau := (t - Q2) / R in
  (* equation (13) *)
  let lambda_Y := SmX * SmX + '4 * M2 * Q2 in
  let sqrt_lY := sqrt lambda_Y in
  let tau_min := (SmX - sqrt_lY) / '2 / M2 in
  let tau_max := (SmX + sqrt_lY) / '2 / M2 in
  (* equation (22), (23) *)
  let lambda_Z := (tau - tau_min) * (tau_max - tau)
                  * (S * X * Q2 - M2 * Q2 * Q2 - m2 * lambda_Y) in
  let sqrt_lZ := sqrt lambda_Z in
  let z1 := (Q2 * SpX + tau * (S * SmX + '2 * M2 * Q2)
             - '2 * M * cos phik * sqrt_lZ) / lambda_Y in
  let z2 := (Q2 * SpX + tau * (S * SmX - '2 * M2 * Q2)
             - '2 * M * cos phik * sqrt_lZ) / lambda_Y in
  let F := '1 / (sqrt_lY * twopi) in
  let F_d := F / (z1 * z2) in
  let F_1p := F * ('1 / z1 + '1 / z2) in
  let F_2p := F * m2 * ('1 / z2 / z2 + '1 / z1 / z1) in
  let F_2m := F * m2 * ('1 / z2 / z2 - '1 / z1 / z1) in
  let F_IR := F_2p - (Q2 + '2 * m2) * F_d in
  (* equation (16) ~ (21) *)
  let theta_11 := '4 * (Q2 - '2 * m2) * F_IR in
  let theta_12 := '4 * tau * F_IR in
  let theta_13 := - '4 * F - '2 * tau * tau * F_d in
  let theta_21 := '2 * (S * X - M2 * Q2) * F_IR / M2 in
  let theta_22 := ('2 * SpX * F_2m + SpX * SmX * F_1p
                   + '2 * (SmX - '2 * M2 * tau) * F_IR
                   - tau * SpX * SpX * F_d) / '2 / M2 in
  let theta_23 := ('4 * M2 * F + ('4 * m2 + '2 * M2 * tau * tau - SmX * tau) * F_d
                   - SpX * F_1p) / '2 / M2 in
  let theta_1j := theta_11 / R / R + theta_12 / R + theta_13 in
  let theta_2j := theta_21 / R / R + theta_22 / R + theta_23 in
  let '(F01, F02) := GetHadStrFunc t in
  (* equation (43), first part *)
  - alp3 / '2 / twopi / lambda_S * (theta_1j * F01 + theta_2j * F02) / t / t.

(** The local [R] of [SigmaBrem_phik]. *)
Definition R_phik (v t Q2 : A) : A := Q2 + v - t.

(** The local [F_IR] of [SigmaBrem_phik]: the same chain of locals, up to
    [F_IR]. *)
Definition F_IR_phik (v t S Q2 : A) : A :=
  let R := Q2 + v - t in
  let X := S - R - t in
  let SmX := S - X in
  let SpX := S + X in
  let tau := (t - Q2) / R in
  let lambda_Y := SmX * SmX + '4 * M2 * Q2 in
  let b2 := (- lambda_Y * tau + SpX * SmX * tau + '2 * SpX * Q2) / '2 in
  let b1 := (- lambda_Y * tau - SpX * SmX * tau - '2 * SpX * Q2) / '2 in
  let c1 := - ('4 * (M2 * tau * tau - SmX * tau - Q2) * m2 - pow2 (S * tau + Q2)) in
  let c2 := - ('4 * (M2 * tau * tau - SmX * tau - Q2) * m2 - pow2 (tau * X - Q2)) in
  let sc1 := sqrt c1 in
  let sc2 := sqrt c2 in
  let F_d := (SpX * (SmX * tau + '2 * Q2)) / (sc1 * sc2 * (sc1 + sc2)) in
  let F_2p := m2 * (b2 / sc2 / c2 - b1 / sc1 / c1) in
  F_2p - (Q2 + '2 * m2) * F_d.

(** dsig/dQ2/dt/dv, integrated over phik; [finite = true] gives the finite
    part of this differential cross section. *)
Definition SigmaBrem_phik (v t S Q2 : A) (finite : bool) : A :=
  let lambda_S := S * S - '4 * m2 * M2 in
  let R := Q2 + v - t in
  let X := S - R - t in
  let SmX := S - X in
  let SpX := S + X in
  let tau := (t - Q2) / R in
  let lambda_Y := SmX * SmX + '4 * M2 * Q2 in
  let sqrt_lY := sqrt lambda_Y in
  (* according to ELRADGEN code *)
  let b2 := (- lambda_Y * tau + SpX * SmX * tau + '2 * SpX * Q2) / '2 in
  let b1 := (- lambda_Y * tau - SpX * SmX * tau - '2 * SpX * Q2) / '2 in
  let c1 := - ('4 * (M2 * tau * tau - SmX * tau - Q2) * m2 - pow2 (S * tau + Q2)) in
  let c2 := - ('4 * (M2 * tau * tau - SmX * tau - Q2) * m2 - pow2 (tau * X - Q2)) in
  let sc1 := sqrt c1 in
  let sc2 := sqrt c2 in
  let F := '1 / sqrt_lY in
  let F_d := (SpX * (SmX * tau + '2 * Q2)) / (sc1 * sc2 * (sc1 + sc2)) in
  let F_1p := '1 / sc1 + '1 / sc2 in
  let F_2p := m2 * (b2 / sc2 / c2 - b1 / sc1 / c1) in
  let F_2m := m2 * (b2 / sc2 / c2 + b1 / sc1 / c1) in
  let F_IR := F_2p - (Q2 + '2 * m2) * F_d in
  (* equation (16) ~ (21) *)
  let theta_11 := '4 * (Q2 - '2 * m2) * F_IR in
  let theta_12 := '4 * tau * F_IR in
  let theta_13 := - '4 * F - '2 * tau * tau * F_d in
  let theta_21 := '2 * (S * X - M2 * Q2) * F_IR / M2 in
  let theta_22 := ('2 * SpX * F_2m + SpX * SmX * F_1p
                   + '2 * (SmX - '2 * M2 * tau) * F_IR
                   - tau * SpX * SpX * F_d) / '2 / M2 in
  let theta_23 := ('4 * M2 * F + ('4 * m2 + '2 * M2 * tau * tau - SmX * tau) * F_d
                   - SpX * F_1p) / '2 / M2 in
  let theta_1j := theta_11 / R / R + theta_12 / R + theta_13 in
  let theta_2j := theta_21 / R / R + theta_22 / R + theta_23 in
  let '(F01, F02) := GetHadStrFunc t in
  (* equation (43) *)
  let res := - alp3 / '2 / twopi / lambda_S
             * (theta_1j * F01 + theta_2j * F02) / t / t in
  if finite then res + alp_pi / twopi * F_IR / R / R * SigmaBorn S Q2
  else res.

(** *** Quadrature *)

(** The global [nodes = cana::calc_legendre_nodes(2048)]. *)
Definition nodes : cana.legendre_nodes Fn := cana.calc_legendre_nodes Fn 2048.

(** Running a call on the global node table. *)
Definition gauss_quad (q : quad_call A) : A :=
  cana.gauss_quad Fn nodes (integrand q) (lower q) (upper q).

(** The call made by [SigmaBrem_phik_v]; its parameter [v2] is not used. *)
Definition SigmaBrem_phik_v_call (t v1 v2 S Q2 : A) (finite : bool) : quad_call A :=
  {| integrand := fun v => SigmaBrem_phik v t S Q2 finite;
     lower := vt_min Q2 t v1;
     upper := vt_max S Q2 t |}.

Definition SigmaBrem_phik_v (t v1 v2 S Q2 : A) (finite : bool) : A :=
  gauss_quad (SigmaBrem_phik_v_call t v1 v2 S Q2 finite).

Definition SigmaFh_call (t1 t2 v1 v2 S Q2 : A) : quad_call A :=
  {| integrand := fun t => SigmaBrem_phik_v t v1 v2 S Q2 false;
     lower := t1;
     upper := t2 |}.

Definition SigmaFh (t1 t2 v1 v2 S Q2 : A) : A :=
  gauss_quad (SigmaFh_call t1 t2 v1 v2 S Q2).

Definition SigmaFs_call (t1 t2 v1 v2 S Q2 : A) : quad_call A :=
  {| integrand := fun t => SigmaBrem_phik_v t v1 v2 S Q2 true;
     lower := t1;
     upper := t2 |}.

Definition SigmaFs (t1 t2 v1 v2 S Q2 : A) : A :=
  gauss_quad (SigmaFs_call t1 t2 v1 v2 S Q2).

(** *** The cross-section query *)

Variable gen : PRadEpElasGen A.

(** Equation (12), the limit of the photonic variable v, scaled by 0.99. *)
Definition v_limit (S Q2 : A) : A :=
  let lambda_S := S * S - '4 * m2 * M2 in
  let lambda_m := Q2 * (Q2 + '4 * m2) in
  '0.99 * '2 * Q2 * (lambda_S - Q2 * (S + m2 + M2))
  / (Q2 * (S + '2 * m2) + sqrt (lambda_S * lambda_m)).

(** The locals [v2] and [v1] of [GetXSdQsq]. *)
Definition cut_v2 (S Q2 : A) : A :=
  cana.clamp (v_cut gen) (v_cut gen) (v_limit S Q2).

Definition cut_v1 (S Q2 : A) : A :=
  cana.clamp (v_min gen) (v_min gen) (cut_v2 S Q2).

(** The inner call that [GetXSdQsq] reaches through [SigmaFs], at the
    outer integration point [t]. *)
Definition GetXSdQsq_Fs_inner (S Q2 t : A) : quad_call A :=
  SigmaBrem_phik_v_call t '0 (cut_v1 S Q2) S Q2 true.

(** The inner call that [GetXSdQsq] reaches through [SigmaFh], at the
    outer integration point [t]. *)
Definition GetXSdQsq_Fh_inner (S Q2 t : A) : quad_call A :=
  SigmaBrem_phik_v_call t (cut_v1 S Q2) (cut_v2 S Q2) S Q2 false.

(** Returns [(sig_born, sig_nrad, sig_rad)]. *)
Definition GetXSdQsq (S Q2 : A) : A * A * A :=
  let v2 := cut_v2 S Q2 in
  let v1 := cut_v1 S Q2 in
  let r := CalcVphIR S Q2 v1 in
  let sig_Fs := SigmaFs (t_min Q2 v1) (t_max Q2 v1) '0 v1 S Q2 in
  (* equation (39) without hard photon emission part of sigmaF *)
  let sig_nrad :=
    sig_born r * ('1 + alp_pi * (delta_VR r + delta_vac r - delta_inf r))
    * exp (alp_pi * delta_inf r)
    + sig_AMM r + sig_Fs in
  (* hard photon emission part *)
  let sig_rad := SigmaFh (t_min Q2 v2) (t_max Q2 v2) v1 v2 S Q2 in
  (sig_born r, sig_nrad, sig_rad).

(** The three outputs of [GetXSdQsq]. *)
Definition xs_born (S Q2 : A) : A := fst (fst (GetXSdQsq S Q2)).
Definition xs_nrad (S Q2 : A) : A := snd (fst (GetXSdQsq S Q2)).
Definition xs_rad (S Q2 : A) : A := snd (GetXSdQsq S Q2).

End Generator.

Arguments std_max {A}.
Arguments GetXSdQsq {A}.
Arguments xs_born {A}.
Arguments xs_nrad {A}.
Arguments xs_rad {A}.
Arguments CalcVphIR {A}.
Arguments SigmaBorn {A}.
Arguments SigmaBrem_phik {A}.
Arguments SigmaBrem_phik_v {A}.
Arguments SigmaBrem_phik_v_call {A}.
Arguments SigmaFh {A}.
Arguments SigmaFs {A}.
Arguments GetEMFF {A}.
Arguments GetEMFF_tau {A}.
Arguments GetHadStrFunc {A}.

(** ** The two instances *)

(** *** Real numbers *)

Definition Rltb (x y : R) : bool := if Rlt_dec x y then true else false.

Definition lit_R (q : Q) : R := (IZR (Qnum q) / IZR (Zpos (Qden q)))%R.

Definition RA : arith :=
  Arith R lit_R Rplus Rminus Rmult Rdiv Ropp R_sqrt.sqrt Rltb.

Definition libm_R : libm RA := Libm RA ln Rtrigo_def.exp Rtrigo_def.cos.

(** *** binary64 *)

Definition float_of_Z (z : Z) : float :=
  match z with
  | Z0 => PrimFloat.zero
  | Zpos _ => PrimFloat.of_uint63 (Uint63.of_Z z)
  | Zneg p => PrimFloat.opp (PrimFloat.of_uint63 (Uint63.of_Z (Zpos p)))
  end.

(** A decimal literal [n/10^k] with [n] and [10^k] below [2^53]: both are
    exact in binary64 and the division rounds their quotient once, to the
    double nearest to the decimal. *)
Definition lit_F (q : Q) : float :=
  PrimFloat.div (float_of_Z (Qnum q)) (float_of_Z (Zpos (Qden q))).

(** The five operations and [sqrt] are the correctly rounded ones of
    IEEE 754; [log], [exp] and [cos] have no binary64 counterpart here and
    stay parameters of the functions that call them. *)
Definition FA : arith :=
  Arith float lit_F PrimFloat.add PrimFloat.sub PrimFloat.mul PrimFloat.div
        PrimFloat.opp PrimFloat.sqrt PrimFloat.ltb.

(** *** Constants

    The properties stated for every [C : cana.consts A] do not depend on
    the values; the evaluations below use the usual ones (masses in MeV). *)
Definition cana_std (A : arith) : cana.consts A :=
  {| cana.alpha := '7.297352568e-3;
     cana.pi := '3.141592653589793;
     cana.ele_mass := '0.510998918;
     cana.mu_mass := '105.6583745;
     cana.tau_mass := '1776.82;
     cana.proton_mass := '938.272046;
     cana.hbarc2 := '38937.93230 |}%num.

(** ** Kinematics and concrete inputs *)

(** The elastic kinematic range of (S, Q2): Q2 is positive and does not
    exceed the value at which the limit of the photonic variable,
    equation (12), vanishes; the numerator of [v_limit] is
    [lambda_S - Q2*(S + m2 + M2)]. *)
Definition physical (C : cana.consts RA) (S Q2 : R) : Prop :=
  (0 < Q2 /\
   Q2 * (S + m2 RA C + M2 RA C) <= S * S - 4 * m2 RA C * M2 RA C)%R.

(** A 1.1 GeV beam on a proton at rest, S = 2*M*E (MeV^2), and a small
    momentum transfer (MeV^2). *)
Definition S_ex (A : arith) : A := ('2064198.5012)%num.
Definition Q2_ex (A : arith) : A := ('1000)%num.

(** A configuration with v_min = 1 and v_cut = 1000 (MeV^2). *)
Definition gen_ex (A : arith) : PRadEpElasGen A :=
  Build_PRadEpElasGen A ('1)%num ('1000)%num 100%Z ('0.001)%num ('0.001)%num.

(** A configuration with a positive v_min and a negative v_cut. *)
Definition gen_neg_cut (A : arith) : PRadEpElasGen A :=
  Build_PRadEpElasGen A ('1)%num (- '1)%num 100%Z ('0.001)%num ('0.001)%num.

(** A point (v, t) inside the bremsstrahlung region of ([S_ex], [Q2_ex]). *)
Definition v_ex (A : arith) : A := ('500)%num.
Definition t_ex (A : arith) : A := ('1000.5)%num.

(** An outer integration point of the hard part, between
    [t_min(Q2, v2)] and [t_max(Q2, v2)] for v2 = 1000. *)
Definition t_hard_ex (A : arith) : A := ('1030)%num.

(** An outer integration point of the soft part, between
    [t_min(Q2, v1)] and [t_max(Q2, v1)] for v1 = 1. *)
Definition t_soft_ex (A : arith) : A := ('1000.01)%num.

(** One GeV^2, in MeV^2. *)
Definition Q2_GeV (A : arith) : A := ('1e6)%num.

(** ** Further definitions *)

(** The local [v_max] of [CalcVphIR]: equation (12), not scaled. *)
Definition v_max_kin (A : arith) (C : cana.consts A) (S Q2 : A) : A :=
  (let lambda_S := S * S - '4 * m2 A C * M2 A C in
   let lambda_m := Q2 * (Q2 + '4 * m2 A C) in
   '2 * Q2 * (lambda_S - Q2 * (S + m2 A C + M2 A C))
   / (Q2 * (S + '2 * m2 A C) + fsqrt A (lambda_S * lambda_m)))%num.

(** Some instance of the [cana] routines and of [libm], to apply at
    concrete inputs statements that hold for every instance. *)
Definition funs_any (A : arith) : cana.funs A :=
  cana.Funs A (fun x => x) (fun _ => ('1)%num) unit (fun _ => tt)
            (fun _ f a b => f a).

Definition libm_any (A : arith) : libm A :=
  Libm A (fun x => x) (fun x => x) (fun x => x).

(** The configuration [gen_ex] with a wider cut, v_cut = 5000. *)
Definition gen_wide (A : arith) : PRadEpElasGen A :=
  Build_PRadEpElasGen A ('1)%num ('5000)%num 100%Z ('0.001)%num ('0.001)%num.

(** S = 100 MeV^2, below the threshold 2 m M of about 959 MeV^2. *)
Definition S_low (A : arith) : A := ('100)%num.

(** A negative t. *)
Definition t_neg (A : arith) : A := (- '5)%num.

(** Q2 = 1447049.3 MeV^2, close to the kinematic edge at [S_ex], where
    [v_limit] is below 1. *)
Definition Q2_edge (A : arith) : A := ('1447049.3)%num.

(** A configuration with v_min = 1000 and a given v_cut. *)
Definition gen_high_min (A : arith) (cut : A) : PRadEpElasGen A :=
  Build_PRadEpElasGen A ('1000)%num cut 100%Z ('0.001)%num ('0.001)%num.


(** ** How the query composes its parts

    These properties hold for every arithmetic, every value of the [cana]
    constants and every quadrature routine: they are about which values the
    code passes where. *)

Section Composition.

Variable A : arith.
Variable C : cana.consts A.
Variable LM : libm A.
Variable Fn : cana.funs A.
Variable gen : PRadEpElasGen A.

Local Open Scope num_scope.

(** C1: the non-radiative output of [GetXSdQsq] is
    sig_born*(1 + alpha/pi*(delta_VR + delta_vac - delta_inf))
    *exp(alpha/pi*delta_inf) + sig_AMM + SigmaFs, the five quantities being
    the outputs of [CalcVphIR(S, Q2, v1)] and [SigmaFs] the finite
    soft-photon remainder; [delta_inf] alone is under the exponential, the
    other corrections enter linearly.  It holds at every (S, Q2), the
    physical ones above threshold included. *)
Theorem GetXSdQsq_nrad_combination (S Q2 : A) :
  let v1 := cut_v1 A C gen S Q2 in
  let r := CalcVphIR C LM Fn S Q2 v1 in
  let alpha_over_pi := cana.alpha C / cana.pi C in
  xs_born C LM Fn gen S Q2 = sig_born r /\
  xs_nrad C LM Fn gen S Q2 =
    sig_born r
    * ('1 + alpha_over_pi * (delta_VR r + delta_vac r - delta_inf r))
    * fexp LM (alpha_over_pi * delta_inf r)
    + sig_AMM r
    + SigmaFs C Fn (t_min A C Q2 v1) (t_max A C Q2 v1) '0 v1 S Q2.
Proof. split; reflexivity. Qed.

(** C9: the Born cross section that [CalcVphIR] writes to [sig_born] is
    [SigmaBorn(S, Q2)], for every (S, Q2) and every third argument. *)
Theorem CalcVphIR_sig_born_is_SigmaBorn (S Q2 v : A) :
  sig_born (CalcVphIR C LM Fn S Q2 v) = SigmaBorn C S Q2.
Proof.
  unfold CalcVphIR, SigmaBorn.
  destruct (GetHadStrFunc C Q2) as [F01 F02].
  reflexivity.
Qed.

(** C10: the five outputs of [CalcVphIR] do not depend on its third
    argument; the cutoff under the logarithms of [delta_VR] and
    [delta_inf] is the [v_max] computed from (S, Q2). *)
Theorem CalcVphIR_ignores_v_min (S Q2 v v' : A) :
  CalcVphIR C LM Fn S Q2 v = CalcVphIR C LM Fn S Q2 v'.
Proof.
  unfold CalcVphIR.
  destruct (GetHadStrFunc C Q2) as [F01 F02].
  reflexivity.
Qed.

(** The two modes of [SigmaBrem_phik], in the constants of the source. *)
Lemma SigmaBrem_phik_modes (v t S Q2 : A) :
  SigmaBrem_phik C v t S Q2 true =
  SigmaBrem_phik C v t S Q2 false
  + alp_pi A C / twopi A C * F_IR_phik A C v t S Q2
    / R_phik A v t Q2 / R_phik A v t Q2 * SigmaBorn C S Q2.
Proof.
  unfold SigmaBrem_phik, F_IR_phik, R_phik.
  destruct (GetHadStrFunc C t) as [F01 F02].
  reflexivity.
Qed.

(** C2 (amended): the finite mode of [SigmaBrem_phik] is the non-finite
    mode plus alpha/pi/(2*pi) * F_IR/R/R * SigmaBorn(S, Q2), with
    R = Q2 + v - t: the add-back term carries the same 1/(2*pi) as the
    prefactor of equation (43). *)
Theorem SigmaBrem_phik_finite_addback (v t S Q2 : A) :
  let R := Q2 + v - t in
  let F_IR := F_IR_phik A C v t S Q2 in
  SigmaBrem_phik C v t S Q2 true =
  SigmaBrem_phik C v t S Q2 false
  + cana.alpha C / cana.pi C / ('2 * cana.pi C) * F_IR / R / R
    * SigmaBorn C S Q2.
Proof.
  cbv zeta. rewrite SigmaBrem_phik_modes. reflexivity.
Qed.

(** C3 (amended): the radiative output of [GetXSdQsq] integrates the
    non-finite [SigmaBrem_phik] over t in [t_min(Q2,v2), t_max(Q2,v2)] and,
    for each t, over v in [vt_min(Q2,t,v1), vt_max(S,Q2,t)].  The inner
    integral does not read v2.  For a given inner floor v1 the result
    depends on v2 through the outer t-limits only: a configuration with
    the same v1 and the same t_min(Q2,v2) and t_max(Q2,v2) gives the same
    radiative output. *)
Theorem SigmaFh_integration_ranges (S Q2 : A) :
  let v1 := cut_v1 A C gen S Q2 in
  let v2 := cut_v2 A C gen S Q2 in
  xs_rad C LM Fn gen S Q2 =
    cana.gauss_quad Fn (nodes A Fn)
      (fun t =>
         cana.gauss_quad Fn (nodes A Fn)
           (fun v => SigmaBrem_phik C v t S Q2 false)
           (vt_min A C Q2 t v1) (vt_max A S Q2 t))
      (t_min A C Q2 v2) (t_max A C Q2 v2)
  /\ xs_rad C LM Fn gen S Q2 =
       gauss_quad A Fn
         {| integrand :=
              fun t => gauss_quad A Fn (GetXSdQsq_Fh_inner A C gen S Q2 t);
            lower := t_min A C Q2 v2;
            upper := t_max A C Q2 v2 |}
  /\ (forall t,
        lower (GetXSdQsq_Fh_inner A C gen S Q2 t) = vt_min A C Q2 t v1
        /\ upper (GetXSdQsq_Fh_inner A C gen S Q2 t) = vt_max A S Q2 t)
  /\ (forall t w1 w2 w2' finite,
        SigmaBrem_phik_v C Fn t w1 w2 S Q2 finite
        = SigmaBrem_phik_v C Fn t w1 w2' S Q2 finite)
  /\ (forall gen' : PRadEpElasGen A,
        cut_v1 A C gen' S Q2 = v1 ->
        t_min A C Q2 (cut_v2 A C gen' S Q2) = t_min A C Q2 v2 ->
        t_max A C Q2 (cut_v2 A C gen' S Q2) = t_max A C Q2 v2 ->
        xs_rad C LM Fn gen' S Q2 = xs_rad C LM Fn gen S Q2).
Proof.
  cbv zeta.
  assert (E : forall g : PRadEpElasGen A,
             xs_rad C LM Fn g S Q2 =
             cana.gauss_quad Fn (nodes A Fn)
               (fun t =>
                  cana.gauss_quad Fn (nodes A Fn)
                    (fun v => SigmaBrem_phik C v t S Q2 false)
                    (vt_min A C Q2 t (cut_v1 A C g S Q2)) (vt_max A S Q2 t))
               (t_min A C Q2 (cut_v2 A C g S Q2))
               (t_max A C Q2 (cut_v2 A C g S Q2))).
  { intro g. unfold xs_rad, GetXSdQsq. cbn [snd].
    unfold SigmaFh, SigmaFh_call, gauss_quad. cbn [integrand lower upper].
    reflexivity. }
  split; [| split; [| split; [| split]]].
  - apply E.
  - reflexivity.
  - intro t. split; reflexivity.
  - intros t w1 w2 w2' finite. reflexivity.
  - intros gen' H1 Hmin Hmax.
    rewrite (E gen'), (E gen), H1, Hmin, Hmax. reflexivity.
Qed.

(** C4 (amended): in the soft contribution that [GetXSdQsq] computes,
    [SigmaFs(t_min(Q2,v1), t_max(Q2,v1), 0., v1, S, Q2)], the inner
    v-integral at each t runs over [vt_min(Q2,t,0), vt_max(S,Q2,t)]: the
    floor passed to [vt_min] is the literal 0; the split point v1 fixes the
    t-range. *)
Theorem SigmaFs_integration_ranges (S Q2 : A) :
  let v1 := cut_v1 A C gen S Q2 in
  let r := CalcVphIR C LM Fn S Q2 v1 in
  let soft :=
    cana.gauss_quad Fn (nodes A Fn)
      (fun t =>
         cana.gauss_quad Fn (nodes A Fn)
           (fun v => SigmaBrem_phik C v t S Q2 true)
           (vt_min A C Q2 t '0) (vt_max A S Q2 t))
      (t_min A C Q2 v1) (t_max A C Q2 v1) in
  SigmaFs C Fn (t_min A C Q2 v1) (t_max A C Q2 v1) '0 v1 S Q2 = soft
  /\ xs_nrad C LM Fn gen S Q2 =
       sig_born r
       * ('1 + alp_pi A C * (delta_VR r + delta_vac r - delta_inf r))
       * fexp LM (alp_pi A C * delta_inf r)
       + sig_AMM r + soft
  /\ soft =
       gauss_quad A Fn
         {| integrand :=
              fun t => gauss_quad A Fn (GetXSdQsq_Fs_inner A C gen S Q2 t);
            lower := t_min A C Q2 v1;
            upper := t_max A C Q2 v1 |}
  /\ (forall t,
        lower (GetXSdQsq_Fs_inner A C gen S Q2 t) = vt_min A C Q2 t '0
        /\ upper (GetXSdQsq_Fs_inner A C gen S Q2 t) = vt_max A S Q2 t).
Proof.
  cbv zeta.
  split; [| split; [| split]].
  - unfold SigmaFs, SigmaFs_call, gauss_quad. cbn [integrand lower upper].
    reflexivity.
  - reflexivity.
  - reflexivity.
  - intro t. split; reflexivity.
Qed.

End Composition.

(** ** Real arithmetic: helper lemmas *)

Module OverR.

Local Open Scope R_scope.

(** Literals become quotients of integers, operations the ones of [R]. *)
Ltac lit_R_eval :=
  repeat match goal with
  | |- context [lit RA ?q] =>
      let n := eval vm_compute in (Qnum q) in
      let d := eval vm_compute in (Qden q) in
      change (lit RA q) with (IZR n / IZR (Zpos d))
  | H : context [lit RA ?q] |- _ =>
      let n := eval vm_compute in (Qnum q) in
      let d := eval vm_compute in (Qden q) in
      change (lit RA q) with (IZR n / IZR (Zpos d)) in H
  end.

Ltac num_R :=
  change (num RA) with R in *;
  lit_R_eval;
  change (fadd RA) with Rplus in *;
  change (fsub RA) with Rminus in *;
  change (fmul RA) with Rmult in *;
  change (fdiv RA) with Rdiv in *;
  change (fopp RA) with Ropp in *;
  change (fsqrt RA) with R_sqrt.sqrt in *;
  change (fltb RA) with Rltb in *.

(** The constants of [cana_std] and the example inputs, as numbers. *)
Ltac std_consts :=
  cbv [m2 M2 m M cana_std S_ex Q2_ex gen_ex gen_neg_cut Q2_GeV
       cana.ele_mass cana.proton_mass cana.pi cana.alpha
       v_min v_cut] in *;
  num_R.

Lemma Rltb_true (x y : R) : x < y -> Rltb x y = true.
Proof.
  intro H. unfold Rltb.
  destruct (Rlt_dec x y); [reflexivity | contradiction].
Qed.

Lemma Rltb_false (x y : R) : y <= x -> Rltb x y = false.
Proof.
  intro H. unfold Rltb.
  destruct (Rlt_dec x y); [lra | reflexivity].
Qed.

Lemma m2_nonneg (C : cana.consts RA) : 0 <= m2 RA C.
Proof. unfold m2. num_R. nra. Qed.

Lemma M2_pos (C : cana.consts RA) : 0 < cana.proton_mass C -> 0 < M2 RA C.
Proof. unfold M2, M. num_R. nra. Qed.

(** [clamp(x, x, hi)] is the smaller of [x] and [hi]. *)
Lemma clamp_self (x hi : R) : @cana.clamp RA x x hi = Rmin x hi.
Proof.
  unfold cana.clamp. num_R.
  rewrite (Rltb_false x x) by lra.
  unfold Rltb, Rmin.
  destruct (Rlt_dec hi x), (Rle_dec x hi); try reflexivity; lra.
Qed.

(** Strictly inside the kinematic range the scaled limit of v is
    positive. *)
Lemma v_limit_pos (C : cana.consts RA) (S Q2 : R) :
  0 < S -> 0 < Q2 ->
  Q2 * (S + m2 RA C + M2 RA C) < S * S - 4 * m2 RA C * M2 RA C ->
  0 < v_limit RA C S Q2.
Proof.
  intros HS HQ Hk.
  pose proof (m2_nonneg C) as Hm2.
  unfold v_limit. num_R.
  set (r := R_sqrt.sqrt _).
  assert (Hr : 0 <= r) by apply sqrt_pos.
  apply Rdiv_lt_0_compat; nra.
Qed.

Lemma v_limit_ex_pos : 0 < v_limit RA (cana_std RA) (S_ex RA) (Q2_ex RA).
Proof. apply v_limit_pos; std_consts; lra. Qed.

(** The clamped cuts, on the reals. *)
Lemma cuts_invariant_R (C : cana.consts RA) (gen : PRadEpElasGen RA)
    (S Q2 : R) :
  0 < v_limit RA C S Q2 -> 0 < v_min gen -> 0 < v_cut gen ->
  (0 < cut_v1 RA C gen S Q2
   /\ cut_v1 RA C gen S Q2 <= cut_v2 RA C gen S Q2
   /\ cut_v2 RA C gen S Q2 <= v_limit RA C S Q2)
  /\ cut_v2 RA C gen S Q2 = Rmin (v_cut gen) (v_limit RA C S Q2)
  /\ cut_v1 RA C gen S Q2 = Rmin (v_min gen) (cut_v2 RA C gen S Q2).
Proof.
  intros Hl Hmin Hcut.
  unfold cut_v1, cut_v2. rewrite !clamp_self.
  set (l := v_limit RA C S Q2) in *.
  repeat split.
  - apply Rmin_glb_lt; [assumption | apply Rmin_glb_lt; assumption].
  - apply Rmin_r.
  - apply Rmin_r.
Qed.

(** With v_min = 1 and v_cut = -1 both cuts are -1. *)
Lemma cuts_negative_cut :
  cut_v2 RA (cana_std RA) (gen_neg_cut RA) (S_ex RA) (Q2_ex RA) = -1
  /\ cut_v1 RA (cana_std RA) (gen_neg_cut RA) (S_ex RA) (Q2_ex RA) = -1.
Proof.
  pose proof v_limit_ex_pos as Hl.
  assert (H2 : cut_v2 RA (cana_std RA) (gen_neg_cut RA) (S_ex RA) (Q2_ex RA)
               = -1).
  { unfold cut_v2. rewrite clamp_self.
    set (l := v_limit RA (cana_std RA) (S_ex RA) (Q2_ex RA)) in *.
    std_consts. rewrite Rmin_left; lra. }
  split; [exact H2 |].
  unfold cut_v1. rewrite clamp_self, H2.
  std_consts. rewrite Rmin_right; lra.
Qed.

(** The sum F1*theta_B1 + F2*theta_B2 in terms of the form factors:
    both squares come with non-negative weights. *)
Lemma Born_bracket (M2 m2 S Q2 GE GM : R) :
  0 < M2 -> 0 <= m2 -> 0 < Q2 ->
  Q2 * (S + m2 + M2) <= S * S - 4 * m2 * M2 ->
  0 <= 4 / 1 * (Q2 / (4 / 1) / M2) * M2 * GM * GM * (Q2 - 2 / 1 * m2)
       + 4 / 1 * M2 * (GE * GE + Q2 / (4 / 1) / M2 * GM * GM)
         / (1 / 1 + Q2 / (4 / 1) / M2)
         * (1 / 1 / (2 / 1 * M2) * (S * (S - Q2) - M2 * Q2)).
Proof.
  intros HM Hm HQ Hk.
  set (W := S * (S - Q2) - M2 * Q2).
  assert (HW : Q2 * m2 + 4 * m2 * M2 <= W) by (unfold W; nra).
  assert (HW0 : 0 <= W) by nra.
  assert (Hd : 0 < 4 * M2 + Q2) by nra.
  replace (_ + _) with
    (2 * GE * GE * W * (4 * M2) / (4 * M2 + Q2)
     + GM * GM * Q2 * ((Q2 - 2 * m2) * (4 * M2 + Q2) + 2 * W)
       / (4 * M2 + Q2)).
  2:{ unfold W. field. split; lra. }
  assert (Hb : 0 <= (Q2 - 2 * m2) * (4 * M2 + Q2) + 2 * W) by nra.
  apply Rplus_le_le_0_compat.
  - apply Rmult_le_pos; [| left; apply Rinv_0_lt_compat; exact Hd].
    assert (0 <= GE * GE) by nra.
    assert (0 <= 2 * (GE * GE) * W) by (apply Rmult_le_pos; nra).
    nra.
  - apply Rmult_le_pos; [| left; apply Rinv_0_lt_compat; exact Hd].
    assert (0 <= GM * GM) by nra.
    assert (0 <= GM * GM * Q2) by (apply Rmult_le_pos; nra).
    apply Rmult_le_pos; assumption.
Qed.

Lemma SigmaBorn_unfold (C : cana.consts RA) (S Q2 : R) :
  SigmaBorn C S Q2 =
  let '(F1, F2) := GetHadStrFunc C Q2 in
  twopi RA C * alp2 RA C / (S * S - 4 / 1 * m2 RA C * M2 RA C) / Q2 / Q2
  * (F1 * (Q2 - 2 / 1 * m2 RA C)
     + F2 * (1 / 1 / (2 / 1 * M2 RA C) * (S * (S - Q2) - M2 RA C * Q2))).
Proof.
  unfold SigmaBorn. destruct (GetHadStrFunc C Q2) as [F1 F2]. reflexivity.
Qed.

Lemma GetEMFF_tau_zero_R (C : cana.consts RA) : GetEMFF_tau C 0 = 0.
Proof.
  unfold GetEMFF_tau. num_R.
  unfold Rdiv. rewrite Ropp_0, !Rmult_0_l. reflexivity.
Qed.

(** For positive Q2 the argument of the polynomials of [GetEMFF] is
    negative, and a millionth of the tau of [GetHadStrFunc] in size. *)
Lemma GetEMFF_tau_negative (C : cana.consts RA) (Q2 : R) :
  0 < cana.proton_mass C -> 0 < Q2 ->
  GetEMFF_tau C Q2 = - (Q2 / 4 / M2 RA C) / 1000000
  /\ GetEMFF_tau C Q2 < 0.
Proof.
  intros HM HQ. pose proof (M2_pos C HM) as HM2.
  unfold GetEMFF_tau. num_R.
  assert (E : - Q2 / (4 / 1) / M2 RA C / (1000000 / 1)
              = - (Q2 / 4 / M2 RA C) / 1000000) by (field; lra).
  split; [exact E |].
  rewrite E.
  assert (0 < Q2 / 4 / M2 RA C) by (repeat apply Rdiv_lt_0_compat; lra).
  lra.
Qed.

(** In real arithmetic the finite mode differs from the non-finite mode
    plus alpha/pi * F_IR/R/R * SigmaBorn wherever that term is not zero:
    the term that the code adds is its quotient by 2*pi. *)
Lemma addback_without_twopi_differs (C : cana.consts RA) (v t S Q2 : R) :
  0 < cana.pi C -> twopi RA C <> 1 ->
  alp_pi RA C * F_IR_phik RA C v t S Q2 / R_phik RA v t Q2
  / R_phik RA v t Q2 * SigmaBorn C S Q2 <> 0 ->
  SigmaBrem_phik C v t S Q2 true
  <> SigmaBrem_phik C v t S Q2 false
     + alp_pi RA C * F_IR_phik RA C v t S Q2 / R_phik RA v t Q2
       / R_phik RA v t Q2 * SigmaBorn C S Q2.
Proof.
  intros Hpi H1 HT E.
  pose proof (SigmaBrem_phik_modes RA C v t S Q2) as Hc.
  num_R. rewrite Hc in E.
  set (T := alp_pi RA C * F_IR_phik RA C v t S Q2 / R_phik RA v t Q2
            / R_phik RA v t Q2 * SigmaBorn C S Q2) in *.
  assert (Htp : 0 < twopi RA C) by (unfold twopi; num_R; lra).
  assert (E' : alp_pi RA C / twopi RA C * F_IR_phik RA C v t S Q2
               / R_phik RA v t Q2 / R_phik RA v t Q2 * SigmaBorn C S Q2
               = T / twopi RA C).
  { unfold T. unfold Rdiv. ring. }
  rewrite E' in E.
  assert (E2 : T * / twopi RA C = T) by (unfold Rdiv in E; lra).
  assert (Hi : / twopi RA C * twopi RA C = 1) by (apply Rinv_l; lra).
  assert (E3 : T * (1 - twopi RA C) = 0).
  { transitivity (T * / twopi RA C * twopi RA C - T * twopi RA C);
      [rewrite Rmult_assoc, Hi; ring | rewrite E2; ring]. }
  apply HT.
  destruct (Rmult_integral _ _ E3) as [H0 | H0]; [exact H0 | lra].
Qed.

End OverR.

(** ** binary64: helper lemmas *)

Module OverF.

Local Open Scope float_scope.

(** [operator<] is irreflexive, NaN included. *)
Lemma ltb_neq (x y : float) : PrimFloat.ltb x y = true -> x <> y.
Proof.
  intros H E. subst y. rewrite ltb_spec in H.
  unfold SFltb, SFcompare in H.
  destruct (Prim2SF x) as [s | s | | s mx e]; try discriminate.
  - destruct s; discriminate.
  - destruct s; rewrite Z.compare_refl, ?Pos.compare_cont_refl in H;
      discriminate.
Qed.

Lemma SFcompare_antisym (x y : spec_float) :
  SFcompare y x = option_map CompOpp (SFcompare x y).
Proof.
  destruct x as [sx | sx | | sx mx ex], y as [sy | sy | | sy my ey];
    try destruct sx; try destruct sy; cbn; try reflexivity.
  all: rewrite (Z.compare_antisym ex ey); destruct (ex ?= ey)%Z; cbn;
    try reflexivity.
  all: change (Pos.compare_cont Eq my mx) with (Pos.compare my mx);
    change (Pos.compare_cont Eq mx my) with (Pos.compare mx my);
    rewrite (Pos.compare_antisym mx my);
    destruct (mx ?= my)%positive; reflexivity.
Qed.

(** A positive double is not NaN. *)
Lemma pos_not_nan (x : float) :
  PrimFloat.ltb 0 x = true -> Prim2SF x <> S754_nan.
Proof. rewrite ltb_spec. intros H E. rewrite E in H. discriminate. Qed.

Lemma SFcompare_some (x y : spec_float) :
  x <> S754_nan -> y <> S754_nan -> exists c, SFcompare x y = Some c.
Proof.
  intros Hx Hy.
  destruct x as [sx | sx | | sx mx ex], y as [sy | sy | | sy my ey];
    try contradiction; cbn; eexists; reflexivity.
Qed.

(** On positive doubles, [!(y < x)] gives [x <= y]. *)
Lemma not_ltb_leb (x y : float) :
  PrimFloat.ltb 0 x = true -> PrimFloat.ltb 0 y = true ->
  PrimFloat.ltb y x = false -> PrimFloat.leb x y = true.
Proof.
  intros Hx Hy H.
  apply pos_not_nan in Hx. apply pos_not_nan in Hy.
  rewrite ltb_spec in H. rewrite leb_spec.
  unfold SFltb in H. unfold SFleb.
  rewrite (SFcompare_antisym (Prim2SF x) (Prim2SF y)) in H.
  destruct (SFcompare_some _ _ Hx Hy) as [c Hc]. rewrite Hc in *.
  destruct c; cbn in H; try reflexivity; discriminate.
Qed.

Lemma leb_refl_pos (x : float) :
  PrimFloat.ltb 0 x = true -> PrimFloat.leb x x = true.
Proof.
  intro Hx. apply not_ltb_leb; try assumption.
  destruct (PrimFloat.ltb x x) eqn:E; [| reflexivity].
  apply ltb_neq in E. contradiction.
Qed.

(** The clamped cuts, on doubles. *)
Lemma cuts_invariant_F (C : cana.consts FA) (gen : PRadEpElasGen FA)
    (S Q2 : float) :
  PrimFloat.ltb 0 (v_limit FA C S Q2) = true ->
  PrimFloat.ltb 0 (v_min gen) = true ->
  PrimFloat.ltb 0 (v_cut gen) = true ->
  PrimFloat.ltb 0 (cut_v1 FA C gen S Q2) = true
  /\ PrimFloat.leb (cut_v1 FA C gen S Q2) (cut_v2 FA C gen S Q2) = true
  /\ PrimFloat.leb (cut_v2 FA C gen S Q2) (v_limit FA C S Q2) = true.
Proof.
  intros Hl Ha Hc.
  unfold cut_v1, cut_v2, cana.clamp.
  change (fltb FA) with PrimFloat.ltb.
  set (l := v_limit FA C S Q2) in *.
  set (a := v_min gen) in *. set (c := v_cut gen) in *.
  assert (Hv2 : exists v2,
    (if PrimFloat.ltb c c then c else if PrimFloat.ltb l c then l else c)
    = v2
    /\ PrimFloat.ltb 0 v2 = true /\ PrimFloat.leb v2 l = true).
  { destruct (PrimFloat.ltb c c) eqn:Ecc.
    - apply ltb_neq in Ecc. contradiction.
    - destruct (PrimFloat.ltb l c) eqn:Elc.
      + exists l. repeat split; auto using leb_refl_pos.
      + exists c. repeat split; auto using not_ltb_leb. }
  destruct Hv2 as (v2 & -> & Hp2 & Hle2).
  destruct (PrimFloat.ltb a a) eqn:Eaa.
  - apply ltb_neq in Eaa. contradiction.
  - destruct (PrimFloat.ltb v2 a) eqn:E2a.
    + repeat split; auto using leb_refl_pos.
    + repeat split; auto using not_ltb_leb.
Qed.

(** At Q2 = 0 the argument of the polynomials of [GetEMFF] is -0. *)
Lemma GetEMFF_tau_zero_F (C : cana.consts FA) :
  PrimFloat.ltb 0 (M2 FA C) = true -> GetEMFF_tau C 0 = (-0)%float.
Proof.
  intro H.
  unfold GetEMFF_tau.
  change (lit FA 4) with 4%float.
  change (fopp FA 0) with (-0)%float.
  change (fdiv FA) with PrimFloat.div.
  change (PrimFloat.div (-0) 4) with (-0)%float.
  set (y := M2 FA C) in *.
  rewrite ltb_spec in H.
  assert (Hd : Prim2SF (PrimFloat.div (-0) y) = S754_zero true).
  { rewrite div_spec. change (Prim2SF (-0)) with (S754_zero true).
    destruct (Prim2SF y) as [s | s | | s mm e]; cbn in H |- *;
      try discriminate.
    - destruct s; [discriminate | reflexivity].
    - destruct s; [discriminate | reflexivity]. }
  assert (Ht : PrimFloat.div (-0) y = (-0)%float).
  { rewrite <- (SF2Prim_Prim2SF (PrimFloat.div (-0) y)), Hd. reflexivity. }
  rewrite Ht. vm_compute. reflexivity.
Qed.

End OverF.

(** ** Born cross section *)

Section Born.

Local Open Scope R_scope.

(** C5: for physical (S, Q2) with lambda_S = S^2 - 4 m^2 M^2 > 0,
    [SigmaBorn(S, Q2)] is (2 pi alpha^2)/(lambda_S Q2^2) *
    (F1*theta_B1 + F2*theta_B2) with theta_B1 = Q2 - 2 m^2 and
    theta_B2 = (S (S - Q2) - M^2 Q2)/(2 M^2), and it is non-negative.
    Real arithmetic; the constants [pi] and [proton_mass] are positive. *)
Theorem SigmaBorn_formula_nonneg (C : cana.consts RA) (S Q2 : R) :
  0 < cana.pi C -> 0 < cana.proton_mass C ->
  physical C S Q2 ->
  0 < S * S - 4 * m2 RA C * M2 RA C ->
  let lambda_S := S * S - 4 * m2 RA C * M2 RA C in
  let theta_B1 := Q2 - 2 * m2 RA C in
  let theta_B2 := (S * (S - Q2) - M2 RA C * Q2) / (2 * M2 RA C) in
  let F1 := fst (GetHadStrFunc C Q2) in
  let F2 := snd (GetHadStrFunc C Q2) in
  SigmaBorn C S Q2 =
    (2 * cana.pi C * (cana.alpha C) ^ 2) / (lambda_S * Q2 ^ 2)
    * (F1 * theta_B1 + F2 * theta_B2)
  /\ 0 <= SigmaBorn C S Q2.
Proof.
  intros Hpi HM [HQ Hk] HlS lambda_S theta_B1 theta_B2 F1 F2.
  pose proof (OverR.M2_pos C HM) as HM2.
  pose proof (OverR.m2_nonneg C) as Hm2.
  rewrite OverR.SigmaBorn_unfold.
  subst F1 F2. unfold GetHadStrFunc.
  destruct (GetEMFF C Q2) as [GE GM]. cbn [fst snd].
  subst lambda_S theta_B1 theta_B2.
  unfold twopi, alp2. OverR.num_R.
  split.
  - field. repeat split; lra.
  - apply Rmult_le_pos.
    + assert (0 <= cana.alpha C * cana.alpha C) by nra.
      assert (0 <= 2 / 1 * cana.pi C * (cana.alpha C * cana.alpha C))
        by (apply Rmult_le_pos; lra).
      assert (HQi : 0 < / Q2) by (apply Rinv_0_lt_compat; exact HQ).
      assert (0 < / (S * S - 4 / 1 * m2 RA C * M2 RA C))
        by (apply Rinv_0_lt_compat; lra).
      set (P := 2 / 1 * cana.pi C * (cana.alpha C * cana.alpha C)) in *.
      set (L := S * S - 4 / 1 * m2 RA C * M2 RA C) in *.
      clearbody P L.
      unfold Rdiv. repeat apply Rmult_le_pos; lra.
    + apply OverR.Born_bracket; assumption.
Qed.

(** C5, at a 1.1 GeV beam and Q2 = 1000 MeV^2 with the usual constants. *)
Lemma SigmaBorn_formula_nonneg_witness :
  (0 < cana.pi (cana_std RA) /\ 0 < cana.proton_mass (cana_std RA)
   /\ physical (cana_std RA) (S_ex RA) (Q2_ex RA)
   /\ 0 < S_ex RA * S_ex RA - 4 * m2 RA (cana_std RA) * M2 RA (cana_std RA))
  /\ 0 <= SigmaBorn (cana_std RA) (S_ex RA) (Q2_ex RA).
Proof.
  assert (H1 : 0 < cana.pi (cana_std RA)) by (OverR.std_consts; lra).
  assert (H2 : 0 < cana.proton_mass (cana_std RA))
    by (OverR.std_consts; lra).
  assert (H3 : physical (cana_std RA) (S_ex RA) (Q2_ex RA))
    by (unfold physical; OverR.std_consts; lra).
  assert (H4 : 0 < S_ex RA * S_ex RA
                   - 4 * m2 RA (cana_std RA) * M2 RA (cana_std RA))
    by (OverR.std_consts; lra).
  split; [exact (conj H1 (conj H2 (conj H3 H4))) |].
  exact (proj2 (SigmaBorn_formula_nonneg (cana_std RA) (S_ex RA) (Q2_ex RA)
                  H1 H2 H3 H4)).
Defined.

End Born.

(** ** Form factors *)

(** C7: at zero momentum transfer [GetEMFF] returns GE = 1 and
    GM = 2.792782 exactly: in real arithmetic for every value of the
    constants, and in binary64, without any rounding, for every
    [proton_mass] whose square is a positive double. *)
Theorem GetEMFF_zero_exact :
  (forall C : cana.consts RA, GetEMFF C 0%R = (1%R, lit RA 2.792782))
  /\ (forall C : cana.consts FA,
        PrimFloat.ltb 0 (M2 FA C) = true ->
        GetEMFF C 0%float = (1%float, lit FA 2.792782)).
Proof.
  split.
  - intro C. unfold GetEMFF. rewrite OverR.GetEMFF_tau_zero_R.
    cbv [x_table poly_sum GEp1 GEp2 GMp1 GMp2 combine fold_left fst snd].
    OverR.num_R. f_equal; field.
  - intros C H. unfold GetEMFF. rewrite (OverF.GetEMFF_tau_zero_F C H).
    vm_compute. reflexivity.
Qed.

(** C7, in binary64 with the usual proton mass. *)
Lemma GetEMFF_zero_exact_witness :
  PrimFloat.ltb 0 (M2 FA (cana_std FA)) = true
  /\ GetEMFF (cana_std FA) 0%float = (1%float, lit FA 2.792782).
Proof.
  assert (H : PrimFloat.ltb 0 (M2 FA (cana_std FA)) = true)
    by (vm_compute; reflexivity).
  split; [exact H |].
  exact (proj2 GetEMFF_zero_exact (cana_std FA) H).
Defined.

(** C6 (the code at the failing input): at Q2 = 10^6 MeV^2 = 1 GeV^2 the
    polynomials of [GetEMFF] are evaluated at tau = -1/(4 M^2), a negative
    number, in real arithmetic and in binary64 alike (there, below
    -2.8e-7); the tau of [GetHadStrFunc], Q2/4/M2, is positive. *)
Theorem GetEMFF_tau_one_GeV2 :
  (GetEMFF_tau (cana_std RA) (Q2_GeV RA)
   = - 1 / (4 * M2 RA (cana_std RA))
   /\ GetEMFF_tau (cana_std RA) (Q2_GeV RA) < 0
   /\ 0 < Q2_GeV RA / 4 / M2 RA (cana_std RA))%R
  /\ PrimFloat.ltb (GetEMFF_tau (cana_std FA) (Q2_GeV FA))
                   (fopp FA (lit FA 2.8e-7))
     = true.
Proof.
  assert (HM : (0 < cana.proton_mass (cana_std RA))%R)
    by (OverR.std_consts; lra).
  pose proof (OverR.M2_pos _ HM) as HM2.
  assert (HQ : (0 < Q2_GeV RA)%R) by (OverR.std_consts; lra).
  destruct (OverR.GetEMFF_tau_negative (cana_std RA) (Q2_GeV RA) HM HQ)
    as [E N].
  split; [split; [| split] |].
  - rewrite E. unfold Q2_GeV. OverR.num_R. field. lra.
  - exact N.
  - apply Rdiv_lt_0_compat; [apply Rdiv_lt_0_compat; lra | exact HM2].
  - vm_compute. reflexivity.
Qed.

(** ** The clamped cuts *)

(** C8 (amended): when v_limit(S, Q2) > 0 and the configuration has
    v_min > 0 and v_cut > 0, the cuts satisfy 0 < v1 <= v2 <= v_limit;
    v2 is v_cut clamped to not exceed v_limit and v1 is v_min clamped to
    not exceed v2.  In real arithmetic and in binary64. *)
Theorem clamped_cuts_invariant :
  (forall (C : cana.consts RA) (gen : PRadEpElasGen RA) (S Q2 : R),
     0 < v_limit RA C S Q2 -> 0 < v_min gen -> 0 < v_cut gen ->
     (0 < cut_v1 RA C gen S Q2
      /\ cut_v1 RA C gen S Q2 <= cut_v2 RA C gen S Q2
      /\ cut_v2 RA C gen S Q2 <= v_limit RA C S Q2)
     /\ cut_v2 RA C gen S Q2 = Rmin (v_cut gen) (v_limit RA C S Q2)
     /\ cut_v1 RA C gen S Q2 = Rmin (v_min gen) (cut_v2 RA C gen S Q2))%R
  /\ (forall (C : cana.consts FA) (gen : PRadEpElasGen FA) (S Q2 : float),
        PrimFloat.ltb 0 (v_limit FA C S Q2) = true ->
        PrimFloat.ltb 0 (v_min gen) = true ->
        PrimFloat.ltb 0 (v_cut gen) = true ->
        PrimFloat.ltb 0 (cut_v1 FA C gen S Q2) = true
        /\ PrimFloat.leb (cut_v1 FA C gen S Q2) (cut_v2 FA C gen S Q2) = true
        /\ PrimFloat.leb (cut_v2 FA C gen S Q2) (v_limit FA C S Q2) = true).
Proof.
  split.
  - exact OverR.cuts_invariant_R.
  - exact OverF.cuts_invariant_F.
Qed.

(** C8 (amended), at a 1.1 GeV beam and Q2 = 1000 MeV^2 with v_min = 1 and
    v_cut = 1000, on the reals and on doubles. *)
Lemma clamped_cuts_invariant_witness :
  ((0 < v_limit RA (cana_std RA) (S_ex RA) (Q2_ex RA)
    /\ 0 < v_min (gen_ex RA) /\ 0 < v_cut (gen_ex RA))
   /\ (0 < cut_v1 RA (cana_std RA) (gen_ex RA) (S_ex RA) (Q2_ex RA)
       /\ cut_v1 RA (cana_std RA) (gen_ex RA) (S_ex RA) (Q2_ex RA)
          <= cut_v2 RA (cana_std RA) (gen_ex RA) (S_ex RA) (Q2_ex RA)
       /\ cut_v2 RA (cana_std RA) (gen_ex RA) (S_ex RA) (Q2_ex RA)
          <= v_limit RA (cana_std RA) (S_ex RA) (Q2_ex RA)))%R
  /\ ((PrimFloat.ltb 0 (v_limit FA (cana_std FA) (S_ex FA) (Q2_ex FA)) = true
       /\ PrimFloat.ltb 0 (v_min (gen_ex FA)) = true
       /\ PrimFloat.ltb 0 (v_cut (gen_ex FA)) = true)
      /\ PrimFloat.ltb 0
           (cut_v1 FA (cana_std FA) (gen_ex FA) (S_ex FA) (Q2_ex FA)) = true).
Proof.
  assert (H1 : (0 < v_min (gen_ex RA))%R) by (OverR.std_consts; lra).
  assert (H2 : (0 < v_cut (gen_ex RA))%R) by (OverR.std_consts; lra).
  assert (G0 : PrimFloat.ltb 0 (v_limit FA (cana_std FA) (S_ex FA) (Q2_ex FA))
               = true) by (vm_compute; reflexivity).
  assert (G1 : PrimFloat.ltb 0 (v_min (gen_ex FA)) = true)
    by (vm_compute; reflexivity).
  assert (G2 : PrimFloat.ltb 0 (v_cut (gen_ex FA)) = true)
    by (vm_compute; reflexivity).
  split.
  - split; [exact (conj OverR.v_limit_ex_pos (conj H1 H2)) |].
    exact (proj1 (proj1 clamped_cuts_invariant (cana_std RA) (gen_ex RA)
                    (S_ex RA) (Q2_ex RA) OverR.v_limit_ex_pos H1 H2)).
  - split; [exact (conj G0 (conj G1 G2)) |].
    exact (proj1 (proj2 clamped_cuts_invariant (cana_std FA) (gen_ex FA)
                    (S_ex FA) (Q2_ex FA) G0 G1 G2)).
Defined.

(** C8 (as stated) fails: at a 1.1 GeV beam and Q2 = 1000 MeV^2,
    v_limit > 0, and for v_min = 1 > 0 with v_cut = -1 both cuts are -1,
    so 0 < v1 does not hold; on the reals and on doubles. *)
Lemma clamped_cuts_negative_cut :
  (0 < v_limit RA (cana_std RA) (S_ex RA) (Q2_ex RA)
   /\ 0 < v_min (gen_neg_cut RA)
   /\ cut_v1 RA (cana_std RA) (gen_neg_cut RA) (S_ex RA) (Q2_ex RA) = -1
   /\ ~ (0 < cut_v1 RA (cana_std RA) (gen_neg_cut RA) (S_ex RA) (Q2_ex RA)))%R
  /\ (PrimFloat.ltb 0 (v_limit FA (cana_std FA) (S_ex FA) (Q2_ex FA)) = true
      /\ PrimFloat.ltb 0 (v_min (gen_neg_cut FA)) = true
      /\ cut_v1 FA (cana_std FA) (gen_neg_cut FA) (S_ex FA) (Q2_ex FA)
         = (-1)%float
      /\ PrimFloat.ltb 0
           (cut_v1 FA (cana_std FA) (gen_neg_cut FA) (S_ex FA) (Q2_ex FA))
         = false).
Proof.
  destruct OverR.cuts_negative_cut as [_ H1].
  split.
  - split; [exact OverR.v_limit_ex_pos |].
    split; [OverR.std_consts; lra |].
    split; [exact H1 |].
    rewrite H1. lra.
  - vm_compute. repeat split.
Qed.

(** ** The add-back term and the integration limits, evaluated *)

Section Evaluated.

Local Open Scope num_scope.

Local Abbreviation C := (cana_std FA).
Local Abbreviation S := (S_ex FA).
Local Abbreviation Q2 := (Q2_ex FA).
Local Abbreviation gen := (gen_ex FA).
Local Abbreviation v1 := (cut_v1 FA C gen S Q2).
Local Abbreviation v2 := (cut_v2 FA C gen S Q2).
Local Abbreviation v := (v_ex FA).
Local Abbreviation t := (t_ex FA).
Local Abbreviation t_hard := (t_hard_ex FA).
Local Abbreviation t_soft := (t_soft_ex FA).

(** C2 (as stated) fails: at S = 2064198.5012, Q2 = 1000, v = 500,
    t = 1000.5, a point inside the bremsstrahlung region, the finite mode
    is not the non-finite mode plus alpha/pi * F_IR/R^2 * SigmaBorn; that
    sum is about -3.2e-15 and lies below the finite-mode value, about
    -4.5e-19, whether R^2 is divided out at once or as /R/R. *)
Lemma SigmaBrem_phik_addback_without_twopi :
  ((t_min FA C Q2 v <? t) = true /\ (t <? t_max FA C Q2 v) = true
   /\ (vt_min FA C Q2 t '0 <? v) = true /\ (v <? vt_max FA S Q2 t) = true
   /\ (v <? v_limit FA C S Q2) = true)
  /\ SigmaBrem_phik C v t S Q2 true
     <> SigmaBrem_phik C v t S Q2 false
        + alp_pi FA C * F_IR_phik FA C v t S Q2 / pow2 FA (R_phik FA v t Q2)
          * SigmaBorn C S Q2
  /\ SigmaBrem_phik C v t S Q2 true
     <> SigmaBrem_phik C v t S Q2 false
        + alp_pi FA C * F_IR_phik FA C v t S Q2
          / R_phik FA v t Q2 / R_phik FA v t Q2 * SigmaBorn C S Q2
  /\ (- '1e-18 <? SigmaBrem_phik C v t S Q2 true) = true
  /\ (SigmaBrem_phik C v t S Q2 false
       + alp_pi FA C * F_IR_phik FA C v t S Q2
         / R_phik FA v t Q2 / R_phik FA v t Q2 * SigmaBorn C S Q2
       <? - '3e-15) = true.
Proof.
  split; [| split; [| split; [| split]]].
  - vm_compute. repeat split.
  - apply not_eq_sym, OverF.ltb_neq. vm_compute. reflexivity.
  - apply not_eq_sym, OverF.ltb_neq. vm_compute. reflexivity.
  - vm_compute. reflexivity.
  - vm_compute. reflexivity.
Qed.

(** C3 (as stated) fails: for v_min = 1 and v_cut = 1000 the cuts are
    v1 = 1 and v2 = 1000; at the outer point t = 1030, inside
    [t_min(Q2,v2), t_max(Q2,v2)], the inner integral of the radiative
    part runs from above 800 to above 60000, not from v1 to v2. *)
Lemma SigmaFh_inner_range_not_v1_v2 :
  (v1 = '1 /\ v2 = '1000
   /\ (t_min FA C Q2 v2 <? t_hard) = true
   /\ (t_hard <? t_max FA C Q2 v2) = true)
  /\ upper (GetXSdQsq_Fh_inner FA C gen S Q2 t_hard) <> v2
  /\ lower (GetXSdQsq_Fh_inner FA C gen S Q2 t_hard) <> v1
  /\ ('60000 <? upper (GetXSdQsq_Fh_inner FA C gen S Q2 t_hard)) = true
  /\ ('800 <? lower (GetXSdQsq_Fh_inner FA C gen S Q2 t_hard)) = true.
Proof.
  split; [| split; [| split; [| split]]].
  - vm_compute. repeat split.
  - apply not_eq_sym, OverF.ltb_neq. vm_compute. reflexivity.
  - apply not_eq_sym, OverF.ltb_neq. vm_compute. reflexivity.
  - vm_compute. reflexivity.
  - vm_compute. reflexivity.
Qed.

(** C4 (as stated) fails: for v_min = 1 the split point is v1 = 1; at the
    outer point t = 1000.01, inside [t_min(Q2,v1), t_max(Q2,v1)], the
    inner integral of the soft part starts at vt_min(Q2,t,0), below 0.5,
    not at vt_min(Q2,t,v1) = 1. *)
Lemma SigmaFs_inner_floor_not_v1 :
  (v1 = '1
   /\ (t_min FA C Q2 v1 <? t_soft) = true
   /\ (t_soft <? t_max FA C Q2 v1) = true)
  /\ lower (GetXSdQsq_Fs_inner FA C gen S Q2 t_soft) <> vt_min FA C Q2 t_soft v1
  /\ vt_min FA C Q2 t_soft v1 = '1
  /\ (lower (GetXSdQsq_Fs_inner FA C gen S Q2 t_soft) <? '0.5) = true.
Proof.
  split; [| split; [| split]].
  - vm_compute. repeat split.
  - apply OverF.ltb_neq. vm_compute. reflexivity.
  - vm_compute. reflexivity.
  - vm_compute. reflexivity.
Qed.

End Evaluated.

(** ** The radiative output across configurations *)

(** C3, at S = 2064198.5012 and Q2 = 1447049.3, where v_limit is below
    v_min = 1: the configurations with v_cut = 1000 and v_cut = 5000 have
    the same v1 and v2 (both v_limit), so the same radiative output. *)
Lemma SigmaFh_integration_ranges_witness :
  (cut_v1 FA (cana_std FA) (gen_wide FA) (S_ex FA) (Q2_edge FA)
   = cut_v1 FA (cana_std FA) (gen_ex FA) (S_ex FA) (Q2_edge FA)
   /\ t_min FA (cana_std FA) (Q2_edge FA)
        (cut_v2 FA (cana_std FA) (gen_wide FA) (S_ex FA) (Q2_edge FA))
      = t_min FA (cana_std FA) (Q2_edge FA)
          (cut_v2 FA (cana_std FA) (gen_ex FA) (S_ex FA) (Q2_edge FA))
   /\ t_max FA (cana_std FA) (Q2_edge FA)
        (cut_v2 FA (cana_std FA) (gen_wide FA) (S_ex FA) (Q2_edge FA))
      = t_max FA (cana_std FA) (Q2_edge FA)
          (cut_v2 FA (cana_std FA) (gen_ex FA) (S_ex FA) (Q2_edge FA)))
  /\ xs_rad (cana_std FA) (libm_any FA) (funs_any FA) (gen_wide FA)
       (S_ex FA) (Q2_edge FA)
     = xs_rad (cana_std FA) (libm_any FA) (funs_any FA) (gen_ex FA)
         (S_ex FA) (Q2_edge FA).
Proof.
  assert (H1 : cut_v1 FA (cana_std FA) (gen_wide FA) (S_ex FA) (Q2_edge FA)
               = cut_v1 FA (cana_std FA) (gen_ex FA) (S_ex FA) (Q2_edge FA))
    by (vm_compute; reflexivity).
  assert (H2 : t_min FA (cana_std FA) (Q2_edge FA)
                 (cut_v2 FA (cana_std FA) (gen_wide FA) (S_ex FA)
                    (Q2_edge FA))
               = t_min FA (cana_std FA) (Q2_edge FA)
                   (cut_v2 FA (cana_std FA) (gen_ex FA) (S_ex FA)
                      (Q2_edge FA)))
    by (vm_compute; reflexivity).
  assert (H3 : t_max FA (cana_std FA) (Q2_edge FA)
                 (cut_v2 FA (cana_std FA) (gen_wide FA) (S_ex FA)
                    (Q2_edge FA))
               = t_max FA (cana_std FA) (Q2_edge FA)
                   (cut_v2 FA (cana_std FA) (gen_ex FA) (S_ex FA)
                      (Q2_edge FA)))
    by (vm_compute; reflexivity).
  split; [exact (conj H1 (conj H2 H3)) |].
  exact (proj2 (proj2 (proj2 (proj2
           (SigmaFh_integration_ranges FA (cana_std FA) (libm_any FA)
              (funs_any FA) (gen_ex FA) (S_ex FA) (Q2_edge FA)))))
           (gen_wide FA) H1 H2 H3).
Defined.

(** The inner floor v1 is itself cut by v2: with v_min = 1000 above
    v_cut, the cuts are v1 = v2 = v_cut, and at the outer point
    t = 1000.01, inside [t_min(Q2,v2), t_max(Q2,v2)] for both, the inner
    integral of the radiative part starts at 5 for v_cut = 5 and at 7 for
    v_cut = 7. *)
Lemma SigmaFh_inner_floor_follows_v_cut :
  (cut_v1 FA (cana_std FA) (gen_high_min FA (lit FA 5)) (S_ex FA) (Q2_ex FA)
   = lit FA 5
   /\ cut_v2 FA (cana_std FA) (gen_high_min FA (lit FA 5)) (S_ex FA)
        (Q2_ex FA) = lit FA 5
   /\ cut_v1 FA (cana_std FA) (gen_high_min FA (lit FA 7)) (S_ex FA)
        (Q2_ex FA) = lit FA 7
   /\ cut_v2 FA (cana_std FA) (gen_high_min FA (lit FA 7)) (S_ex FA)
        (Q2_ex FA) = lit FA 7)
  /\ (fltb FA (t_min FA (cana_std FA) (Q2_ex FA) (lit FA 5)) (t_soft_ex FA)
      = true
      /\ fltb FA (t_soft_ex FA) (t_max FA (cana_std FA) (Q2_ex FA) (lit FA 5))
         = true
      /\ fltb FA (t_min FA (cana_std FA) (Q2_ex FA) (lit FA 7))
           (t_soft_ex FA) = true
      /\ fltb FA (t_soft_ex FA)
           (t_max FA (cana_std FA) (Q2_ex FA) (lit FA 7)) = true)
  /\ lower (GetXSdQsq_Fh_inner FA (cana_std FA) (gen_high_min FA (lit FA 5))
              (S_ex FA) (Q2_ex FA) (t_soft_ex FA)) = lit FA 5
  /\ lower (GetXSdQsq_Fh_inner FA (cana_std FA) (gen_high_min FA (lit FA 7))
              (S_ex FA) (Q2_ex FA) (t_soft_ex FA)) = lit FA 7.
Proof.
  split; [| split; [| split]].
  - vm_compute. repeat split.
  - vm_compute. repeat split.
  - vm_compute. reflexivity.
  - vm_compute. reflexivity.
Qed.

(** * Further properties

    The kinematic helpers, the form factors, the virtual-photon part and
    the way the query uses its configuration. *)

(** ** Helper lemmas on the reals *)

Module Kin.

Import OverR.
Local Open Scope R_scope.

Lemma le_div (a b c : R) : 0 < b -> c * b <= a -> c <= a / b.
Proof.
  intros Hb H. unfold Rdiv.
  apply Rmult_le_reg_r with b; [exact Hb |].
  rewrite Rmult_assoc, Rinv_l by lra. lra.
Qed.

Lemma div_le (a b c : R) : 0 < b -> a <= c * b -> a / b <= c.
Proof.
  intros Hb H. unfold Rdiv.
  apply Rmult_le_reg_r with b; [exact Hb |].
  rewrite Rmult_assoc, Rinv_l by lra. lra.
Qed.

Lemma lt_div (a b c : R) : 0 < b -> c * b < a -> c < a / b.
Proof.
  intros Hb H. unfold Rdiv.
  apply Rmult_lt_reg_r with b; [exact Hb |].
  rewrite Rmult_assoc, Rinv_l by lra. lra.
Qed.

Lemma div_lt (a b c : R) : 0 < b -> a < c * b -> a / b < c.
Proof.
  intros Hb H. unfold Rdiv.
  apply Rmult_lt_reg_r with b; [exact Hb |].
  rewrite Rmult_assoc, Rinv_l by lra. lra.
Qed.

Lemma std_max_R (a b : R) : @std_max RA a b = Rmax a b.
Proof.
  unfold std_max. num_R. unfold Rltb, Rmax.
  destruct (Rlt_dec a b), (Rle_dec a b); try reflexivity; lra.
Qed.

(** The square root under [t_min] and [t_max]. *)
Lemma t_root_facts (M2 Q2 v : R) :
  0 < M2 -> 0 < Q2 -> 0 <= v ->
  let s := R_sqrt.sqrt ((Q2 + v) * (Q2 + v) + 4 / 1 * M2 * Q2) in
  s * s = (Q2 + v) * (Q2 + v) + 4 * M2 * Q2 /\ Q2 + v < s.
Proof.
  intros HM HQ Hv s.
  assert (Hs2 : s * s = (Q2 + v) * (Q2 + v) + 4 * M2 * Q2).
  { unfold s. rewrite sqrt_sqrt; [lra | nra]. }
  assert (Hs0 : 0 <= s) by apply sqrt_pos.
  split; [exact Hs2 | nra].
Qed.

Lemma t_order (C : cana.consts RA) (Q2 v : R) :
  0 < cana.proton_mass C -> 0 < Q2 -> 0 <= v ->
  0 < t_min RA C Q2 v
  /\ t_min RA C Q2 v <= Q2 <= t_max RA C Q2 v
  /\ (0 < v -> t_min RA C Q2 v < Q2 < t_max RA C Q2 v)
  /\ (v = 0 -> t_min RA C Q2 v = Q2 /\ t_max RA C Q2 v = Q2).
Proof.
  intros HM HQ Hv. pose proof (M2_pos C HM) as HM2.
  unfold t_min, t_max, pow2. num_R.
  destruct (t_root_facts (M2 RA C) Q2 v HM2 HQ Hv) as [Hs2 Hs].
  set (s := R_sqrt.sqrt _) in *.
  assert (Hd : 0 < 2 / 1 * (M2 RA C + v)) by lra.
  repeat split.
  - apply Rdiv_lt_0_compat; [| exact Hd]. nra.
  - apply div_le; [exact Hd | nra].
  - apply le_div; [exact Hd | nra].
  - apply div_lt; [exact Hd | nra].
  - apply lt_div; [exact Hd | nra].
  - subst v. field. lra.
  - subst v. field. lra.
Qed.

(** A quadratic [t x^2 - t d x - K d^2] with [t > 0] and [K > 0] has at
    most one non-negative root. *)
Lemma nonneg_root_unique (t d K x y : R) :
  0 < t -> 0 <= K -> 0 <= x -> 0 <= y ->
  t * x * x - t * d * x - K * d * d = 0 ->
  t * y * y - t * d * y - K * d * d = 0 ->
  (d = 0 \/ 0 < K) ->
  x = y.
Proof.
  intros Ht HK Hx Hy Ex Ey Hd.
  assert (E : (x - y) * (t * (x + y) - t * d) = 0) by nra.
  destruct (Rmult_integral _ _ E) as [H | H]; [lra |].
  assert (Exy : x + y = d).
  { assert (E2 : t * (x + y - d) = 0) by lra.
    destruct (Rmult_integral _ _ E2); lra. }
  assert (P : t * x * y + K * d * d = 0) by nra.
  assert (0 <= t * x * y) by (apply Rmult_le_pos; [apply Rmult_le_pos |]; lra).
  assert (0 <= K * d * d) by nra.
  assert (Z : K * d * d = 0) by lra.
  assert (D0 : d = 0).
  { destruct Hd as [Hd | Hd]; [exact Hd |].
    assert (E3 : K * (d * d) = 0) by lra.
    destruct (Rmult_integral _ _ E3) as [? | E4]; [lra |].
    destruct (Rmult_integral _ _ E4); assumption. }
  lra.
Qed.

(** The larger of the two values under [vt_min] is the non-negative root
    in x of [t x^2 - t (t - Q2) x - M2 (t - Q2)^2]. *)
Lemma v_t_root (K Q2 t : R) :
  0 < K -> 0 < t ->
  let a := R_sqrt.sqrt t in
  let b := R_sqrt.sqrt (4 / 1 * K + t) in
  let x := Rmax ((t - Q2) * (a + b) / (2 / 1) / a)
                ((t - Q2) * (a - b) / (2 / 1) / a) in
  0 <= x /\ t * x * x - t * (t - Q2) * x - K * (t - Q2) * (t - Q2) = 0.
Proof.
  intros HK Ht a b x.
  assert (Ha : 0 < a) by (apply sqrt_lt_R0; exact Ht).
  assert (Ha2 : a * a = t) by (apply sqrt_sqrt; lra).
  assert (Hb2 : b * b = 4 * K + t) by (unfold b; rewrite sqrt_sqrt; lra).
  assert (Hb0 : 0 <= b) by apply sqrt_pos.
  assert (Hab : a < b) by nra.
  set (d := t - Q2) in *.
  assert (E1 : d * (a + b) / (2 / 1) / a = d * ((a + b) / (2 * a)))
    by (field; lra).
  assert (E2 : d * (a - b) / (2 / 1) / a = d * ((a - b) / (2 * a)))
    by (field; lra).
  assert (P : 0 < (a + b) / (2 * a)) by (apply Rdiv_lt_0_compat; lra).
  assert (N : (a - b) / (2 * a) < 0) by (apply div_lt; lra).
  assert (R1 : forall y, y = d * ((a + b) / (2 * a)) ->
               t * y * y - t * d * y - K * d * d = 0).
  { intros y ->. rewrite <- Ha2.
    transitivity (d * d * ((b * b - a * a) / 4 - K)); [field; lra |].
    rewrite Hb2, Ha2. field. }
  assert (R2 : forall y, y = d * ((a - b) / (2 * a)) ->
               t * y * y - t * d * y - K * d * d = 0).
  { intros y ->. rewrite <- Ha2.
    transitivity (d * d * ((b * b - a * a) / 4 - K)); [field; lra |].
    rewrite Hb2, Ha2. field. }
  subst x. rewrite E1, E2.
  set (p := (a + b) / (2 * a)) in *. set (n := (a - b) / (2 * a)) in *.
  destruct (Rle_dec 0 d) as [Hd | Hd].
  - rewrite Rmax_left by nra. split; [nra | apply R1; reflexivity].
  - rewrite Rmax_right by nra. split; [nra | apply R2; reflexivity].
Qed.

(** At [t = t_min(Q2, v)] and at [t = t_max(Q2, v)], [v] is a root in x of
    [t x^2 - t (t - Q2) x - M2 (t - Q2)^2]. *)
Lemma t_extremes_quadratic (C : cana.consts RA) (Q2 v : R) :
  0 < cana.proton_mass C -> 0 < Q2 -> 0 <= v ->
  forall t, t = t_min RA C Q2 v \/ t = t_max RA C Q2 v ->
  t * v * v - t * (t - Q2) * v - M2 RA C * (t - Q2) * (t - Q2) = 0.
Proof.
  intros HM HQ Hv t Ht. pose proof (M2_pos C HM) as HM2.
  unfold t_min, t_max, pow2 in Ht. num_R.
  destruct (t_root_facts (M2 RA C) Q2 v HM2 HQ Hv) as [Hs2 Hs].
  set (s := R_sqrt.sqrt _) in *.
  set (K := M2 RA C) in *.
  set (B := 2 * K * Q2 + v * (Q2 + v)).
  assert (Hvs : v * v * (s * s) = B * B - 4 * K * Q2 * Q2 * (K + v))
    by (rewrite Hs2; unfold B; ring).
  assert (HN : exists N, N = 2 * (K + v) * t
                         /\ N * N - 2 * B * N + 4 * K * Q2 * Q2 * (K + v) = 0).
  { destruct Ht as [Ht | Ht].
    - exists (B - v * s). split; [rewrite Ht; unfold B; field; lra |].
      transitivity (v * v * (s * s) - (B * B - 4 * K * Q2 * Q2 * (K + v)));
        [ring | rewrite Hvs; ring].
    - exists (B + v * s). split; [rewrite Ht; unfold B; field; lra |].
      transitivity (v * v * (s * s) - (B * B - 4 * K * Q2 * Q2 * (K + v)));
        [ring | rewrite Hvs; ring]. }
  destruct HN as (N & EN & HN). rewrite EN in HN. clear EN N.
  assert (T : (K + v) * t * t - B * t + K * Q2 * Q2 = 0).
  { assert (E : 4 * (K + v) * ((K + v) * t * t - B * t + K * Q2 * Q2) = 0)
      by (rewrite <- HN; ring).
    destruct (Rmult_integral _ _ E); lra. }
  replace (t * v * v - t * (t - Q2) * v - K * (t - Q2) * (t - Q2))
    with (- ((K + v) * t * t - B * t + K * Q2 * Q2)) by (unfold B; ring).
  rewrite T. ring.
Qed.

Lemma vt_min_at_extreme (C : cana.consts RA) (Q2 v w t : R) :
  0 < cana.proton_mass C -> 0 < Q2 -> 0 <= v ->
  t = t_min RA C Q2 v \/ t = t_max RA C Q2 v ->
  vt_min RA C Q2 t w = Rmax w v.
Proof.
  intros HM HQ Hv Ht. pose proof (M2_pos C HM) as HM2.
  assert (Htpos : 0 < t).
  { destruct (t_order C Q2 v HM HQ Hv) as (P & [L U] & _).
    destruct Ht as [-> | ->]; lra. }
  pose proof (t_extremes_quadratic C Q2 v HM HQ Hv t Ht) as Ev.
  unfold vt_min. rewrite !std_max_R. num_R.
  destruct (v_t_root (M2 RA C) Q2 t HM2 Htpos) as [Hx Ex].
  f_equal.
  apply (nonneg_root_unique t (t - Q2) (M2 RA C)); lra.
Qed.

Lemma vt_max_cases (S Q2 t : R) :
  0 < Q2 -> Q2 <= S -> 0 < t ->
  (Q2 <= t -> vt_max RA S Q2 t = S * (t - Q2) / t)
  /\ (t <= Q2 -> vt_max RA S Q2 t = (Q2 - t) * (S - Q2) / Q2)
  /\ 0 <= vt_max RA S Q2 t.
Proof.
  intros HQ HS Ht.
  unfold vt_max. rewrite std_max_R. num_R.
  assert (E1 : S - Q2 * S / t = S * (t - Q2) / t) by (field; lra).
  assert (E2 : S + t - Q2 - S * t / Q2 = (Q2 - t) * (S - Q2) / Q2)
    by (field; lra).
  rewrite E1, E2.
  assert (P1 : Q2 <= t -> 0 <= S * (t - Q2) / t).
  { intro. apply le_div; [lra |]. rewrite Rmult_0_l.
    apply Rmult_le_pos; lra. }
  assert (N1 : t <= Q2 -> S * (t - Q2) / t <= 0).
  { intro. apply div_le; [lra |]. rewrite Rmult_0_l. nra. }
  assert (P2 : t <= Q2 -> 0 <= (Q2 - t) * (S - Q2) / Q2).
  { intro. apply le_div; [lra |]. rewrite Rmult_0_l.
    apply Rmult_le_pos; lra. }
  assert (N2 : Q2 <= t -> (Q2 - t) * (S - Q2) / Q2 <= 0).
  { intro. apply div_le; [lra |]. rewrite Rmult_0_l. nra. }
  repeat split.
  - intro H. rewrite Rmax_left; [reflexivity |].
    specialize (P1 H). specialize (N2 H). lra.
  - intro H. rewrite Rmax_right; [reflexivity |].
    specialize (P2 H). specialize (N1 H). lra.
  - destruct (Rle_dec Q2 t) as [H | H].
    + eapply Rle_trans; [apply (P1 H) | apply Rmax_l].
    + assert (H' : t <= Q2) by lra.
      eapply Rle_trans; [apply (P2 H') | apply Rmax_r].
Qed.

Lemma GetEMFF_tau_range (C : cana.consts RA) (Q2 : R) :
  0 < cana.proton_mass C -> 0 <= Q2 <= 40000 * M2 RA C ->
  - (1 / 100) <= GetEMFF_tau C Q2 <= 0.
Proof.
  intros HM [H0 H1]. pose proof (M2_pos C HM) as HM2.
  unfold GetEMFF_tau. num_R.
  replace (- Q2 / (4 / 1) / M2 RA C / (1000000 / 1))
    with (- (Q2 / (4000000 * M2 RA C))) by (field; lra).
  assert (0 <= Q2 / (4000000 * M2 RA C)) by (apply le_div; lra).
  assert (Q2 / (4000000 * M2 RA C) <= 1 / 100) by (apply div_le; lra).
  lra.
Qed.

(** Powers of a number between -1/100 and 0. *)
Lemma small_powers (x : R) :
  - (1 / 100) <= x <= 0 ->
  (0 <= x * x <= - x / 100)
  /\ (x / 10000 <= x * x * x <= 0)
  /\ (0 <= x * x * x * x <= - x / 1000000)
  /\ (x / 100000000 <= x * x * x * x * x <= 0).
Proof.
  intros [L U].
  assert (H2 : 0 <= x * x <= - x / 100) by nra.
  assert (H3 : x / 10000 <= x * x * x <= 0) by nra.
  assert (H4 : 0 <= x * x * x * x <= - x / 1000000) by nra.
  assert (H5 : x / 100000000 <= x * x * x * x * x <= 0) by nra.
  tauto.
Qed.

Lemma GetEMFF_bounds (C : cana.consts RA) (Q2 : R) :
  0 < cana.proton_mass C -> 0 <= Q2 <= 40000 * M2 RA C ->
  1 <= fst (GetEMFF C Q2) <= 57 / 50
  /\ 2792782 / 1000000 <= snd (GetEMFF C Q2) <= 16 / 5.
Proof.
  intros HM HQ.
  pose proof (GetEMFF_tau_range C Q2 HM HQ) as Ht.
  unfold GetEMFF.
  set (x := GetEMFF_tau C Q2) in *.
  cbv [x_table poly_sum GEp1 GEp2 GMp1 GMp2 combine fold_left fst snd].
  num_R.
  destruct (small_powers x Ht) as (H2 & H3 & H4 & H5).
  replace (1 / 1 * x * x * x * x * x) with (x * x * x * x * x) by field.
  replace (1 / 1 * x * x * x * x) with (x * x * x * x) by field.
  replace (1 / 1 * x * x * x) with (x * x * x) by field.
  replace (1 / 1 * x * x) with (x * x) by field.
  set (p2 := x * x) in *. set (p3 := p2 * x) in *.
  set (p4 := p3 * x) in *. set (p5 := p4 * x) in *.
  clearbody p5. clearbody p4. clearbody p3. clearbody p2.
  repeat split.
  - apply le_div; lra.
  - apply div_le; lra.
  - apply le_div; lra.
  - apply div_le; lra.
Qed.

Lemma Born_bracket_pos (M2 m2 S Q2 GE GM : R) :
  0 < M2 -> 0 <= m2 -> 0 < Q2 -> 0 < GM ->
  Q2 * (S + m2 + M2) <= S * S - 4 * m2 * M2 ->
  0 < 4 / 1 * (Q2 / (4 / 1) / M2) * M2 * GM * GM * (Q2 - 2 / 1 * m2)
      + 4 / 1 * M2 * (GE * GE + Q2 / (4 / 1) / M2 * GM * GM)
        / (1 / 1 + Q2 / (4 / 1) / M2)
        * (1 / 1 / (2 / 1 * M2) * (S * (S - Q2) - M2 * Q2)).
Proof.
  intros HM Hm HQ HG Hk.
  set (W := S * (S - Q2) - M2 * Q2).
  assert (HW : Q2 * m2 + 4 * m2 * M2 <= W) by (unfold W; nra).
  assert (HW0 : 0 <= W) by nra.
  assert (Hd : 0 < 4 * M2 + Q2) by nra.
  replace (_ + _) with
    (2 * GE * GE * W * (4 * M2) / (4 * M2 + Q2)
     + GM * GM * Q2 * ((Q2 - 2 * m2) * (4 * M2 + Q2) + 2 * W)
       / (4 * M2 + Q2)).
  2:{ unfold W. field. split; lra. }
  assert (Hb : 0 < (Q2 - 2 * m2) * (4 * M2 + Q2) + 2 * W) by nra.
  apply Rplus_le_lt_0_compat.
  - apply Rmult_le_pos; [| left; apply Rinv_0_lt_compat; exact Hd].
    assert (0 <= GE * GE) by nra.
    assert (0 <= 2 * (GE * GE) * W) by (apply Rmult_le_pos; nra).
    nra.
  - apply Rmult_lt_0_compat; [| apply Rinv_0_lt_compat; exact Hd].
    assert (0 < GM * GM) by nra.
    assert (0 < GM * GM * Q2) by (apply Rmult_lt_0_compat; lra).
    apply Rmult_lt_0_compat; assumption.
Qed.

(** The logarithm L_m of [CalcVphIR], for a squared lepton mass [mm]. *)
Lemma L_m_pos (mm Q2 : R) :
  0 < mm -> 0 < Q2 ->
  let sqrt_lm := R_sqrt.sqrt (Q2 * (Q2 + 4 / 1 * mm)) in
  Q2 < sqrt_lm /\ 0 < ln ((sqrt_lm + Q2) / (sqrt_lm - Q2)) / sqrt_lm.
Proof.
  intros Hm HQ r.
  assert (Hr2 : r * r = Q2 * (Q2 + 4 * mm)).
  { unfold r. rewrite sqrt_sqrt; [lra | nra]. }
  assert (Hr0 : 0 <= r) by apply sqrt_pos.
  assert (Hr : Q2 < r) by nra.
  split; [exact Hr |].
  apply Rdiv_lt_0_compat; [| lra].
  rewrite <- ln_1. apply ln_increasing; [lra |].
  unfold Rdiv. apply Rmult_lt_reg_r with (r - Q2); [lra |].
  rewrite Rmult_assoc, Rinv_l by lra. lra.
Qed.

(** When v_min does not exceed v_cut, the split point is the smaller of
    v_min and v_limit. *)
Lemma cut_v1_uncut (C : cana.consts RA) (gen : PRadEpElasGen RA) (S Q2 : R) :
  v_min gen <= v_cut gen ->
  cut_v1 RA C gen S Q2 = Rmin (v_min gen) (v_limit RA C S Q2).
Proof.
  intro H. unfold cut_v1, cut_v2. rewrite !clamp_self.
  set (l := v_limit RA C S Q2).
  unfold Rmin.
  destruct (Rle_dec (v_cut gen) l), (Rle_dec (v_min gen) (v_cut gen)),
    (Rle_dec (v_min gen) l); try lra;
  destruct (Rle_dec (v_min gen) l); lra.
Qed.

(** The constants and inputs of the examples, as numbers. *)
Ltac ex_consts :=
  cbv [v_ex t_ex t_hard_ex t_soft_ex gen_wide S_low] in *; std_consts.

End Kin.

(** ** Helper lemmas on doubles *)

Module NaN.

Local Open Scope float_scope.

Lemma nan_add_l (x y : float) :
  Prim2SF x = S754_nan -> Prim2SF (x + y) = S754_nan.
Proof. intro H. rewrite add_spec, H. reflexivity. Qed.

Lemma nan_add_r (x y : float) :
  Prim2SF y = S754_nan -> Prim2SF (x + y) = S754_nan.
Proof.
  intro H. rewrite add_spec, H. unfold SF64add, SFadd.
  destruct (Prim2SF x); reflexivity.
Qed.

Lemma nan_sub_l (x y : float) :
  Prim2SF x = S754_nan -> Prim2SF (x - y) = S754_nan.
Proof. intro H. rewrite sub_spec, H. reflexivity. Qed.

Lemma nan_mul_l (x y : float) :
  Prim2SF x = S754_nan -> Prim2SF (x * y) = S754_nan.
Proof. intro H. rewrite mul_spec, H. reflexivity. Qed.

Lemma nan_mul_r (x y : float) :
  Prim2SF y = S754_nan -> Prim2SF (x * y) = S754_nan.
Proof.
  intro H. rewrite mul_spec, H. unfold SF64mul, SFmul.
  destruct (Prim2SF x); reflexivity.
Qed.

Lemma nan_div_l (x y : float) :
  Prim2SF x = S754_nan -> Prim2SF (x / y) = S754_nan.
Proof. intro H. rewrite div_spec, H. reflexivity. Qed.

Lemma nan_div_r (x y : float) :
  Prim2SF y = S754_nan -> Prim2SF (x / y) = S754_nan.
Proof.
  intro H. rewrite div_spec, H. unfold SF64div, SFdiv.
  destruct (Prim2SF x); reflexivity.
Qed.

(** A comparison with NaN on the right is false. *)
Lemma ltb_nan_r (x y : float) :
  Prim2SF y = S754_nan -> PrimFloat.ltb x y = false.
Proof.
  intro H. rewrite ltb_spec, H. unfold SFltb, SFcompare.
  destruct (Prim2SF x); reflexivity.
Qed.

(** The square root of a negative double is NaN. *)
Lemma sqrt_negative (t : float) :
  PrimFloat.ltb t 0 = true -> Prim2SF (PrimFloat.sqrt t) = S754_nan.
Proof.
  intro H. rewrite ltb_spec in H. rewrite sqrt_spec.
  change (Prim2SF 0) with (S754_zero false) in H.
  unfold SFltb, SFcompare in H. unfold SF64sqrt, SFsqrt.
  destruct (Prim2SF t) as [s | s | | s mx e]; try discriminate;
    destruct s; try discriminate; reflexivity.
Qed.

(** [std::max(a, NaN)] is [a]. *)
Lemma std_max_nan_r (a b : float) :
  Prim2SF b = S754_nan -> @std_max FA a b = a.
Proof.
  intro H. unfold std_max. change (fltb FA) with PrimFloat.ltb.
  rewrite (ltb_nan_r a b H). reflexivity.
Qed.

Ltac float_ops :=
  change (fltb FA) with PrimFloat.ltb in *;
  change (fdiv FA) with PrimFloat.div in *;
  change (fmul FA) with PrimFloat.mul in *;
  change (fadd FA) with PrimFloat.add in *;
  change (fsub FA) with PrimFloat.sub in *;
  change (fopp FA) with PrimFloat.opp in *;
  change (fsqrt FA) with PrimFloat.sqrt in *.

(** Below threshold [sqrt(lambda_S)] is NaN and so is [delta_VR]. *)
Lemma delta_VR_below_threshold (C : cana.consts FA) (LM : libm FA)
    (Fn : cana.funs FA) (S Q2 v : float) :
  PrimFloat.ltb (S * S - lit FA 4 * m2 FA C * M2 FA C) 0 = true ->
  Prim2SF (delta_VR (CalcVphIR C LM Fn S Q2 v)) = S754_nan.
Proof.
  intro H. apply sqrt_negative in H.
  unfold CalcVphIR.
  destruct (GetHadStrFunc C Q2) as [F01 F02].
  cbn [delta_VR]. float_ops.
  apply nan_sub_l, nan_sub_l, nan_add_l, nan_add_l, nan_add_r, nan_div_l,
    nan_add_l, nan_mul_r, nan_div_r.
  exact H.
Qed.

End NaN.

(** ** The t-range and the v-range *)

Section Ranges.

Import OverR.
Local Open Scope R_scope.

(** X1: for a positive proton mass, Q2 > 0 and v >= 0, the t-limits
    satisfy 0 < t_min(Q2,v) <= Q2 <= t_max(Q2,v); both inequalities are
    strict for v > 0 and both limits are Q2 at v = 0. *)
Theorem t_min_Q2_t_max (C : cana.consts RA) (Q2 v : R) :
  0 < cana.proton_mass C -> 0 < Q2 -> 0 <= v ->
  0 < t_min RA C Q2 v
  /\ t_min RA C Q2 v <= Q2 <= t_max RA C Q2 v
  /\ (0 < v -> t_min RA C Q2 v < Q2 < t_max RA C Q2 v)
  /\ (v = 0 -> t_min RA C Q2 v = Q2 /\ t_max RA C Q2 v = Q2).
Proof.
  intros HM HQ Hv.
  destruct (Kin.t_order C Q2 v HM HQ Hv) as (P & O & St & Z).
  split; [exact P |]. split; [exact O |]. split; [exact St | exact Z].
Qed.

(** X1, at Q2 = 1000 and v = 500 with the usual proton mass. *)
Lemma t_min_Q2_t_max_witness :
  (0 < cana.proton_mass (cana_std RA) /\ 0 < Q2_ex RA /\ 0 <= v_ex RA)
  /\ t_min RA (cana_std RA) (Q2_ex RA) (v_ex RA) <= Q2_ex RA
     <= t_max RA (cana_std RA) (Q2_ex RA) (v_ex RA).
Proof.
  assert (H1 : 0 < cana.proton_mass (cana_std RA)) by (Kin.ex_consts; lra).
  assert (H2 : 0 < Q2_ex RA) by (Kin.ex_consts; lra).
  assert (H3 : 0 <= v_ex RA) by (Kin.ex_consts; lra).
  split; [exact (conj H1 (conj H2 H3)) |].
  exact (proj1 (proj2 (t_min_Q2_t_max (cana_std RA) (Q2_ex RA) (v_ex RA)
                         H1 H2 H3))).
Defined.

(** X2: t_min(Q2,v) and t_max(Q2,v) are the two roots in t of
    (M^2 + v) t^2 - (2 M^2 Q2 + v (Q2 + v)) t + M^2 Q2^2: their product is
    M^2 Q2^2/(M^2 + v) and their sum (2 M^2 Q2 + v (Q2 + v))/(M^2 + v). *)
Theorem t_min_t_max_vieta (C : cana.consts RA) (Q2 v : R) :
  0 < cana.proton_mass C -> 0 < Q2 -> 0 <= v ->
  t_min RA C Q2 v * t_max RA C Q2 v = M2 RA C * Q2 * Q2 / (M2 RA C + v)
  /\ t_min RA C Q2 v + t_max RA C Q2 v
     = (2 * M2 RA C * Q2 + v * (Q2 + v)) / (M2 RA C + v).
Proof.
  intros HM HQ Hv. pose proof (M2_pos C HM) as HM2.
  unfold t_min, t_max, pow2. num_R.
  destruct (Kin.t_root_facts (M2 RA C) Q2 v HM2 HQ Hv) as [Hs2 Hs].
  set (s := R_sqrt.sqrt _) in *.
  set (K := M2 RA C) in *.
  split.
  - transitivity
      (((2 * K * Q2 + v * (Q2 + v)) * (2 * K * Q2 + v * (Q2 + v))
        - v * v * (s * s)) / (4 * (K + v) * (K + v))).
    + field. lra.
    + rewrite Hs2. field. lra.
  - field. lra.
Qed.

(** X2, at Q2 = 1000 and v = 500. *)
Lemma t_min_t_max_vieta_witness :
  (0 < cana.proton_mass (cana_std RA) /\ 0 < Q2_ex RA /\ 0 <= v_ex RA)
  /\ t_min RA (cana_std RA) (Q2_ex RA) (v_ex RA)
     * t_max RA (cana_std RA) (Q2_ex RA) (v_ex RA)
     = M2 RA (cana_std RA) * Q2_ex RA * Q2_ex RA
       / (M2 RA (cana_std RA) + v_ex RA).
Proof.
  assert (H1 : 0 < cana.proton_mass (cana_std RA)) by (Kin.ex_consts; lra).
  assert (H2 : 0 < Q2_ex RA) by (Kin.ex_consts; lra).
  assert (H3 : 0 <= v_ex RA) by (Kin.ex_consts; lra).
  split; [exact (conj H1 (conj H2 H3)) |].
  exact (proj1 (t_min_t_max_vieta (cana_std RA) (Q2_ex RA) (v_ex RA)
                  H1 H2 H3)).
Defined.

(** X3: [vt_min] inverts the t-limits: for v >= 0 and any floor w,
    vt_min(Q2, t_max(Q2,v), w) and vt_min(Q2, t_min(Q2,v), w) are both
    max(w, v); with the floor 0 they give v back. *)
Theorem vt_min_inverts_t_limits (C : cana.consts RA) (Q2 v w : R) :
  0 < cana.proton_mass C -> 0 < Q2 -> 0 <= v ->
  vt_min RA C Q2 (t_max RA C Q2 v) w = Rmax w v
  /\ vt_min RA C Q2 (t_min RA C Q2 v) w = Rmax w v
  /\ vt_min RA C Q2 (t_max RA C Q2 v) 0 = v
  /\ vt_min RA C Q2 (t_min RA C Q2 v) 0 = v.
Proof.
  intros HM HQ Hv.
  assert (E : forall u, vt_min RA C Q2 (t_max RA C Q2 v) u = Rmax u v)
    by (intro u; apply Kin.vt_min_at_extreme; auto).
  assert (E' : forall u, vt_min RA C Q2 (t_min RA C Q2 v) u = Rmax u v)
    by (intro u; apply Kin.vt_min_at_extreme; auto).
  split; [apply E |]. split; [apply E' |].
  split; [rewrite E | rewrite E']; apply Rmax_right; exact Hv.
Qed.

(** X3, at Q2 = 1000 and v = 500. *)
Lemma vt_min_inverts_t_limits_witness :
  (0 < cana.proton_mass (cana_std RA) /\ 0 < Q2_ex RA /\ 0 <= v_ex RA)
  /\ vt_min RA (cana_std RA) (Q2_ex RA)
       (t_max RA (cana_std RA) (Q2_ex RA) (v_ex RA)) 0 = v_ex RA.
Proof.
  assert (H1 : 0 < cana.proton_mass (cana_std RA)) by (Kin.ex_consts; lra).
  assert (H2 : 0 < Q2_ex RA) by (Kin.ex_consts; lra).
  assert (H3 : 0 <= v_ex RA) by (Kin.ex_consts; lra).
  split; [exact (conj H1 (conj H2 H3)) |].
  exact (proj1 (proj2 (proj2 (vt_min_inverts_t_limits (cana_std RA)
                  (Q2_ex RA) (v_ex RA) 0 H1 H2 H3)))).
Defined.

(** X4: for 0 < Q2 <= S and t > 0, vt_max(S,Q2,t) is S (t - Q2)/t above
    Q2 and (Q2 - t)(S - Q2)/Q2 below Q2; it is never negative and
    vanishes at t = Q2. *)
Theorem vt_max_closed_form (S Q2 t : R) :
  0 < Q2 -> Q2 <= S -> 0 < t ->
  (Q2 <= t -> vt_max RA S Q2 t = S * (t - Q2) / t)
  /\ (t <= Q2 -> vt_max RA S Q2 t = (Q2 - t) * (S - Q2) / Q2)
  /\ 0 <= vt_max RA S Q2 t
  /\ (t = Q2 -> vt_max RA S Q2 t = 0).
Proof.
  intros HQ HS Ht.
  destruct (Kin.vt_max_cases S Q2 t HQ HS Ht) as (Ha & Hb & Hp).
  split; [exact Ha |]. split; [exact Hb |]. split; [exact Hp |].
  intro E. rewrite Ha by lra. rewrite E. num_R. field. lra.
Qed.

(** X4, at S = 2064198.5012, Q2 = 1000 and t = 1000.5. *)
Lemma vt_max_closed_form_witness :
  (0 < Q2_ex RA /\ Q2_ex RA <= S_ex RA /\ 0 < t_ex RA)
  /\ 0 <= vt_max RA (S_ex RA) (Q2_ex RA) (t_ex RA).
Proof.
  assert (H1 : 0 < Q2_ex RA) by (Kin.ex_consts; lra).
  assert (H2 : Q2_ex RA <= S_ex RA) by (Kin.ex_consts; lra).
  assert (H3 : 0 < t_ex RA) by (Kin.ex_consts; lra).
  split; [exact (conj H1 (conj H2 H3)) |].
  exact (proj1 (proj2 (proj2 (vt_max_closed_form (S_ex RA) (Q2_ex RA)
                  (t_ex RA) H1 H2 H3)))).
Defined.

(** X5: above Q2 the v-interval that [SigmaBrem_phik_v] integrates over
    with the floor 0, from vt_min(Q2,t,0) to vt_max(S,Q2,t), has its lower
    end below its upper end exactly when t (S + M^2) <= S^2; beyond that
    the two ends are swapped. *)
Theorem inner_range_orientation (C : cana.consts RA) (S Q2 t : R) :
  0 < cana.proton_mass C -> 0 < Q2 -> Q2 <= S -> Q2 < t ->
  (t * (S + M2 RA C) <= S * S ->
   lower (SigmaBrem_phik_v_call C t 0 0 S Q2 true)
   <= upper (SigmaBrem_phik_v_call C t 0 0 S Q2 true))
  /\ (S * S < t * (S + M2 RA C) ->
      upper (SigmaBrem_phik_v_call C t 0 0 S Q2 true)
      < lower (SigmaBrem_phik_v_call C t 0 0 S Q2 true)).
Proof.
  intros HM HQ HS Ht. pose proof (M2_pos C HM) as HK.
  cbn [lower upper SigmaBrem_phik_v_call].
  assert (Htp : 0 < t) by lra.
  destruct (Kin.vt_max_cases S Q2 t HQ HS Htp) as (Hu & _ & _).
  rewrite (Hu (Rlt_le _ _ Ht)).
  unfold vt_min. rewrite !Kin.std_max_R. num_R.
  set (K := M2 RA C) in *.
  set (a := R_sqrt.sqrt t). set (b := R_sqrt.sqrt (4 / 1 * K + t)).
  assert (Ha : 0 < a) by (apply sqrt_lt_R0; exact Htp).
  assert (Ha2 : a * a = t) by (apply sqrt_sqrt; lra).
  assert (Hb2 : b * b = 4 * K + t) by (unfold b; rewrite sqrt_sqrt; lra).
  assert (Hb0 : 0 <= b) by apply sqrt_pos.
  assert (Hab : a < b) by nra.
  set (d := t - Q2) in *. assert (Hd : 0 < d) by (unfold d; lra).
  assert (E1 : d * (a + b) / (2 / 1) / a = d * ((a + b) / (2 * a)))
    by (field; lra).
  assert (E2 : d * (a - b) / (2 / 1) / a = d * ((a - b) / (2 * a)))
    by (field; lra).
  assert (P : 0 < (a + b) / (2 * a)) by (apply Rdiv_lt_0_compat; lra).
  assert (N : (a - b) / (2 * a) < 0) by (apply Kin.div_lt; lra).
  rewrite E1, E2.
  rewrite (Rmax_left (d * ((a + b) / (2 * a)))) by nra.
  rewrite (Rmax_right 0) by nra.
  replace (S * d / t) with (d * (S / t)) by (field; lra).
  assert (Q : (a + b) / (2 * a) - S / t = (a * b - (2 * S - t)) / (2 * t)).
  { rewrite <- Ha2. field. lra. }
  assert (Hab2 : (a * b) * (a * b) = t * (4 * K + t))
    by (rewrite <- Hb2; rewrite <- Ha2 at 1; ring).
  assert (Hab0 : 0 <= a * b) by (apply Rmult_le_pos; lra).
  split; intro H.
  - assert (HtS : t <= S).
    { assert (t * S <= S * S) by nra.
      apply Rmult_le_reg_r with S; lra. }
    assert (Hsq : (a * b) * (a * b) <= (2 * S - t) * (2 * S - t))
      by (rewrite Hab2; nra).
    assert (a * b <= 2 * S - t).
    { destruct (Rle_dec (a * b) (2 * S - t)) as [? | Hn]; [assumption |].
      exfalso. assert (2 * S - t < a * b) by lra. nra. }
    assert ((a + b) / (2 * a) - S / t <= 0).
    { rewrite Q. apply Kin.div_le; [lra | lra]. }
    nra.
  - assert (2 * S - t < a * b).
    { destruct (Rle_dec 0 (2 * S - t)) as [Hp | Hn]; [| lra].
      assert (Hsq : (2 * S - t) * (2 * S - t) < (a * b) * (a * b))
        by (rewrite Hab2; nra).
      destruct (Rlt_dec (2 * S - t) (a * b)) as [? | Hn]; [assumption |].
      exfalso. assert (a * b <= 2 * S - t) by lra. nra. }
    assert (0 < (a + b) / (2 * a) - S / t).
    { rewrite Q. apply Kin.lt_div; [lra | lra]. }
    nra.
Qed.

(** X5, at S = 2064198.5012, Q2 = 1000 and t = 1000.5. *)
Lemma inner_range_orientation_witness :
  (0 < cana.proton_mass (cana_std RA) /\ 0 < Q2_ex RA
   /\ Q2_ex RA <= S_ex RA /\ Q2_ex RA < t_ex RA
   /\ t_ex RA * (S_ex RA + M2 RA (cana_std RA)) <= S_ex RA * S_ex RA)
  /\ lower (SigmaBrem_phik_v_call (cana_std RA) (t_ex RA) 0 0
              (S_ex RA) (Q2_ex RA) true)
     <= upper (SigmaBrem_phik_v_call (cana_std RA) (t_ex RA) 0 0
                 (S_ex RA) (Q2_ex RA) true).
Proof.
  assert (H1 : 0 < cana.proton_mass (cana_std RA)) by (Kin.ex_consts; lra).
  assert (H2 : 0 < Q2_ex RA) by (Kin.ex_consts; lra).
  assert (H3 : Q2_ex RA <= S_ex RA) by (Kin.ex_consts; lra).
  assert (H4 : Q2_ex RA < t_ex RA) by (Kin.ex_consts; lra).
  assert (H5 : t_ex RA * (S_ex RA + M2 RA (cana_std RA))
               <= S_ex RA * S_ex RA) by (Kin.ex_consts; lra).
  split; [exact (conj H1 (conj H2 (conj H3 (conj H4 H5)))) |].
  exact (proj1 (inner_range_orientation (cana_std RA) (S_ex RA) (Q2_ex RA)
                  (t_ex RA) H1 H2 H3 H4) H5).
Defined.

End Ranges.

(** ** Form factors, structure functions and the Born cross section *)

Section FormFactors.

Import OverR.
Local Open Scope R_scope.

(** X6: for Q2 >= 0 the structure functions are F1 = Q2 GM^2 and
    F2 = 4 M^2 (4 M^2 GE^2 + Q2 GM^2)/(4 M^2 + Q2), with (GE, GM) the
    form factors at Q2, and neither is negative. *)
Theorem GetHadStrFunc_closed_form (C : cana.consts RA) (Q2 : R) :
  0 < cana.proton_mass C -> 0 <= Q2 ->
  let GE := fst (GetEMFF C Q2) in
  let GM := snd (GetEMFF C Q2) in
  fst (GetHadStrFunc C Q2) = Q2 * GM * GM
  /\ snd (GetHadStrFunc C Q2)
     = 4 * M2 RA C * (4 * M2 RA C * GE * GE + Q2 * GM * GM)
       / (4 * M2 RA C + Q2)
  /\ 0 <= fst (GetHadStrFunc C Q2)
  /\ 0 <= snd (GetHadStrFunc C Q2).
Proof.
  intros HM HQ. pose proof (M2_pos C HM) as HM2.
  unfold GetHadStrFunc.
  destruct (GetEMFF C Q2) as [GE GM]. cbn [fst snd]. num_R.
  set (K := M2 RA C) in *.
  assert (E1 : 4 / 1 * (Q2 / (4 / 1) / K) * K * GM * GM = Q2 * GM * GM)
    by (field; lra).
  assert (E2 : 4 / 1 * K * (GE * GE + Q2 / (4 / 1) / K * GM * GM)
               / (1 / 1 + Q2 / (4 / 1) / K)
               = 4 * K * (4 * K * GE * GE + Q2 * GM * GM) / (4 * K + Q2))
    by (field; lra).
  rewrite E1, E2.
  assert (G1 : 0 <= GE * GE) by nra.
  assert (G2 : 0 <= GM * GM) by nra.
  split; [reflexivity |]. split; [reflexivity |]. split.
  - rewrite Rmult_assoc. apply Rmult_le_pos; lra.
  - apply Kin.le_div; [lra |]. rewrite Rmult_0_l.
    apply Rmult_le_pos; [lra |].
    assert (0 <= 4 * K * (GE * GE)) by (apply Rmult_le_pos; lra).
    assert (0 <= Q2 * (GM * GM)) by (apply Rmult_le_pos; lra).
    lra.
Qed.

(** X6, at Q2 = 1000 with the usual proton mass. *)
Lemma GetHadStrFunc_closed_form_witness :
  (0 < cana.proton_mass (cana_std RA) /\ 0 <= Q2_ex RA)
  /\ 0 <= fst (GetHadStrFunc (cana_std RA) (Q2_ex RA))
  /\ 0 <= snd (GetHadStrFunc (cana_std RA) (Q2_ex RA)).
Proof.
  assert (H1 : 0 < cana.proton_mass (cana_std RA)) by (Kin.ex_consts; lra).
  assert (H2 : 0 <= Q2_ex RA) by (Kin.ex_consts; lra).
  split; [exact (conj H1 H2) |].
  exact (proj2 (proj2 (GetHadStrFunc_closed_form (cana_std RA) (Q2_ex RA)
                         H1 H2))).
Defined.

(** X7: for 0 <= Q2 <= 40000 M^2 (tau of [GetEMFF] between -1/100 and 0)
    the form factors are finite and do not fall below their values at
    Q2 = 0: 1 <= GE <= 1.14 and 2.792782 <= GM <= 3.2. *)
Theorem GetEMFF_range (C : cana.consts RA) (Q2 : R) :
  0 < cana.proton_mass C -> 0 <= Q2 <= 40000 * M2 RA C ->
  - (1 / 100) <= GetEMFF_tau C Q2 <= 0
  /\ 1 <= fst (GetEMFF C Q2) <= 57 / 50
  /\ 2792782 / 1000000 <= snd (GetEMFF C Q2) <= 16 / 5.
Proof.
  intros HM HQ.
  split; [exact (Kin.GetEMFF_tau_range C Q2 HM HQ) |].
  exact (Kin.GetEMFF_bounds C Q2 HM HQ).
Qed.

(** X7, at Q2 = 1000. *)
Lemma GetEMFF_range_witness :
  (0 < cana.proton_mass (cana_std RA)
   /\ 0 <= Q2_ex RA <= 40000 * M2 RA (cana_std RA))
  /\ 1 <= fst (GetEMFF (cana_std RA) (Q2_ex RA)) <= 57 / 50.
Proof.
  assert (H1 : 0 < cana.proton_mass (cana_std RA)) by (Kin.ex_consts; lra).
  assert (H2 : 0 <= Q2_ex RA <= 40000 * M2 RA (cana_std RA))
    by (Kin.ex_consts; lra).
  split; [exact (conj H1 H2) |].
  exact (proj1 (proj2 (GetEMFF_range (cana_std RA) (Q2_ex RA) H1 H2))).
Defined.

(** X8: for physical (S, Q2) with lambda_S > 0 and Q2 <= 40000 M^2, and
    with pi > 0, alpha <> 0 and a positive proton mass, the Born cross
    section is strictly positive. *)
Theorem SigmaBorn_positive (C : cana.consts RA) (S Q2 : R) :
  0 < cana.pi C -> cana.alpha C <> 0 -> 0 < cana.proton_mass C ->
  physical C S Q2 -> Q2 <= 40000 * M2 RA C ->
  0 < S * S - 4 * m2 RA C * M2 RA C ->
  0 < SigmaBorn C S Q2.
Proof.
  intros Hpi Ha HM [HQ Hk] HQb HlS.
  pose proof (M2_pos C HM) as HM2.
  pose proof (m2_nonneg C) as Hm2.
  assert (HQ' : 0 <= Q2 <= 40000 * M2 RA C) by lra.
  destruct (Kin.GetEMFF_bounds C Q2 HM HQ') as [_ [HG _]].
  rewrite SigmaBorn_unfold.
  unfold GetHadStrFunc.
  destruct (GetEMFF C Q2) as [GE GM]. cbn [fst snd] in *.
  unfold twopi, alp2. num_R.
  apply Rmult_lt_0_compat.
  - assert (0 < cana.alpha C * cana.alpha C) by nra.
    assert (0 < 2 / 1 * cana.pi C * (cana.alpha C * cana.alpha C))
      by (apply Rmult_lt_0_compat; lra).
    assert (HQi : 0 < / Q2) by (apply Rinv_0_lt_compat; exact HQ).
    assert (0 < / (S * S - 4 / 1 * m2 RA C * M2 RA C))
      by (apply Rinv_0_lt_compat; lra).
    set (P := 2 / 1 * cana.pi C * (cana.alpha C * cana.alpha C)) in *.
    set (L := S * S - 4 / 1 * m2 RA C * M2 RA C) in *.
    clearbody P L.
    unfold Rdiv. repeat apply Rmult_lt_0_compat; lra.
  - apply Kin.Born_bracket_pos; try assumption. lra.
Qed.

(** X8, at a 1.1 GeV beam and Q2 = 1000 MeV^2. *)
Lemma SigmaBorn_positive_witness :
  (0 < cana.pi (cana_std RA) /\ cana.alpha (cana_std RA) <> 0
   /\ 0 < cana.proton_mass (cana_std RA)
   /\ physical (cana_std RA) (S_ex RA) (Q2_ex RA)
   /\ Q2_ex RA <= 40000 * M2 RA (cana_std RA)
   /\ 0 < S_ex RA * S_ex RA - 4 * m2 RA (cana_std RA) * M2 RA (cana_std RA))
  /\ 0 < SigmaBorn (cana_std RA) (S_ex RA) (Q2_ex RA).
Proof.
  assert (H1 : 0 < cana.pi (cana_std RA)) by (Kin.ex_consts; lra).
  assert (H2 : cana.alpha (cana_std RA) <> 0) by (Kin.ex_consts; lra).
  assert (H3 : 0 < cana.proton_mass (cana_std RA)) by (Kin.ex_consts; lra).
  assert (H4 : physical (cana_std RA) (S_ex RA) (Q2_ex RA))
    by (unfold physical; Kin.ex_consts; lra).
  assert (H5 : Q2_ex RA <= 40000 * M2 RA (cana_std RA))
    by (Kin.ex_consts; lra).
  assert (H6 : 0 < S_ex RA * S_ex RA
                   - 4 * m2 RA (cana_std RA) * M2 RA (cana_std RA))
    by (Kin.ex_consts; lra).
  split; [exact (conj H1 (conj H2 (conj H3 (conj H4 (conj H5 H6))))) |].
  exact (SigmaBorn_positive (cana_std RA) (S_ex RA) (Q2_ex RA)
           H1 H2 H3 H4 H5 H6).
Defined.

(** X12: with the logarithm of [libm_R], the anomalous-magnetic-moment
    term of [CalcVphIR] is
    4 alpha^3 m^2 L_m (Q2 GM^2 - 2 M^2 GE^2)/(Q2 lambda_S), and it is
    negative for 0 < Q2 <= M^2/6 above threshold (positive alpha and
    masses). *)
Theorem sig_AMM_negative (C : cana.consts RA)
    (Fn : cana.funs RA) (S Q2 v : R) :
  0 < cana.alpha C -> 0 < cana.ele_mass C -> 0 < cana.proton_mass C ->
  0 < Q2 -> 6 * Q2 <= M2 RA C ->
  0 < S * S - 4 * m2 RA C * M2 RA C ->
  let GE := fst (GetEMFF C Q2) in
  let GM := snd (GetEMFF C Q2) in
  let sqrt_lm := R_sqrt.sqrt (Q2 * (Q2 + 4 * m2 RA C)) in
  let L_m := ln ((sqrt_lm + Q2) / (sqrt_lm - Q2)) / sqrt_lm in
  sig_AMM (CalcVphIR C libm_R Fn S Q2 v)
  = 4 * cana.alpha C ^ 3 * m2 RA C * L_m
    * (Q2 * GM * GM - 2 * M2 RA C * GE * GE)
    / (Q2 * (S * S - 4 * m2 RA C * M2 RA C))
  /\ sig_AMM (CalcVphIR C libm_R Fn S Q2 v) < 0.
Proof.
  intros Ha Hm HM HQ HQb HlS GE GM sqrt_lm L_m.
  pose proof (M2_pos C HM) as HM2.
  assert (Hm2 : 0 < m2 RA C) by (unfold m2, m; num_R; nra).
  assert (HQ' : 0 <= Q2 <= 40000 * M2 RA C) by lra.
  destruct (Kin.GetEMFF_bounds C Q2 HM HQ') as [[HE1 HE2] [HG1 HG2]].
  fold GE in HE1, HE2. fold GM in HG1, HG2.
  destruct (Kin.L_m_pos (m2 RA C) Q2 Hm2 HQ) as [Hr HL].
  replace (4 / 1 * m2 RA C) with (4 * m2 RA C) in Hr, HL by field.
  fold sqrt_lm in Hr, HL. fold L_m in HL.
  assert (E : sig_AMM (CalcVphIR C libm_R Fn S Q2 v)
              = 4 * cana.alpha C ^ 3 * m2 RA C * L_m
                * (Q2 * GM * GM - 2 * M2 RA C * GE * GE)
                / (Q2 * (S * S - 4 * m2 RA C * M2 RA C))).
  { unfold CalcVphIR, GetHadStrFunc. subst GE GM.
    destruct (GetEMFF C Q2) as [GE GM]. cbn [fst snd sig_AMM].
    change (flog libm_R) with ln.
    unfold alp3, alp2. num_R.
    replace (4 / 1 * m2 RA C) with (4 * m2 RA C) by field.
    fold sqrt_lm. fold L_m.
    field. repeat split; lra. }
  split; [exact E |].
  rewrite E.
  assert (Hneg : Q2 * GM * GM - 2 * M2 RA C * GE * GE < 0).
  { assert (G2 : GM * GM <= 256 / 25) by nra.
    assert (E2 : 1 <= GE * GE) by nra.
    assert (Q2 * (GM * GM) <= Q2 * (256 / 25))
      by (apply Rmult_le_compat_l; lra).
    assert (2 * M2 RA C * 1 <= 2 * M2 RA C * (GE * GE))
      by (apply Rmult_le_compat_l; lra).
    lra. }
  assert (Hpos : 0 < 4 * cana.alpha C ^ 3 * m2 RA C * L_m).
  { assert (H3 : 0 < cana.alpha C ^ 3) by (apply pow_lt; exact Ha).
    apply Rmult_lt_0_compat; [| exact HL].
    apply Rmult_lt_0_compat; [| exact Hm2].
    apply Rmult_lt_0_compat; [lra | exact H3]. }
  assert (Hden : 0 < Q2 * (S * S - 4 * m2 RA C * M2 RA C))
    by (apply Rmult_lt_0_compat; lra).
  apply Kin.div_lt; [exact Hden |]. rewrite Rmult_0_l.
  set (P := 4 * cana.alpha C ^ 3 * m2 RA C * L_m) in *.
  set (N := Q2 * GM * GM - 2 * M2 RA C * GE * GE) in *.
  clearbody P N. nra.
Qed.

(** X12, at a 1.1 GeV beam and Q2 = 1000 MeV^2. *)
Lemma sig_AMM_negative_witness :
  (0 < cana.alpha (cana_std RA) /\ 0 < cana.ele_mass (cana_std RA)
   /\ 0 < cana.proton_mass (cana_std RA)
   /\ 0 < Q2_ex RA /\ 6 * Q2_ex RA <= M2 RA (cana_std RA)
   /\ 0 < S_ex RA * S_ex RA - 4 * m2 RA (cana_std RA) * M2 RA (cana_std RA))
  /\ sig_AMM (CalcVphIR (cana_std RA) libm_R (funs_any RA)
                (S_ex RA) (Q2_ex RA) 1) < 0.
Proof.
  assert (H1 : 0 < cana.alpha (cana_std RA)) by (Kin.ex_consts; lra).
  assert (H2 : 0 < cana.ele_mass (cana_std RA)) by (Kin.ex_consts; lra).
  assert (H3 : 0 < cana.proton_mass (cana_std RA)) by (Kin.ex_consts; lra).
  assert (H4 : 0 < Q2_ex RA) by (Kin.ex_consts; lra).
  assert (H5 : 6 * Q2_ex RA <= M2 RA (cana_std RA)) by (Kin.ex_consts; lra).
  assert (H6 : 0 < S_ex RA * S_ex RA
                   - 4 * m2 RA (cana_std RA) * M2 RA (cana_std RA))
    by (Kin.ex_consts; lra).
  split; [exact (conj H1 (conj H2 (conj H3 (conj H4 (conj H5 H6))))) |].
  exact (proj2 (sig_AMM_negative (cana_std RA) (funs_any RA) (S_ex RA)
                  (Q2_ex RA) 1 H1 H2 H3 H4 H5 H6)).
Defined.

End FormFactors.

(** ** The query [GetXSdQsq] and the photon angle *)

Module Query.

Section Generic.

Variable A : arith.
Variable C : cana.consts A.
Variable LM : libm A.
Variable Fn : cana.funs A.
Local Open Scope num_scope.

Lemma xs_born_SigmaBorn (gen : PRadEpElasGen A) (S Q2 : A) :
  xs_born C LM Fn gen S Q2 = SigmaBorn C S Q2.
Proof.
  unfold xs_born, GetXSdQsq. cbn [fst].
  unfold CalcVphIR, SigmaBorn.
  destruct (GetHadStrFunc C Q2) as [F01 F02]. reflexivity.
Qed.

Lemma xs_nrad_by_v1 (gen gen' : PRadEpElasGen A) (S Q2 : A) :
  cut_v1 A C gen S Q2 = cut_v1 A C gen' S Q2 ->
  xs_nrad C LM Fn gen S Q2 = xs_nrad C LM Fn gen' S Q2.
Proof.
  intro H. unfold xs_nrad, GetXSdQsq. cbn [fst snd]. rewrite H. reflexivity.
Qed.

Lemma delta_inf_v_max (S Q2 v : A) :
  let Q2_m := Q2 + '2 * m2 A C in
  let sqrt_lm := fsqrt A (Q2 * (Q2 + '4 * m2 A C)) in
  let L_m := flog LM ((sqrt_lm + Q2) / (sqrt_lm - Q2)) / sqrt_lm in
  delta_inf (CalcVphIR C LM Fn S Q2 v)
  = (Q2_m * L_m - '1)
    * flog LM (v_max_kin A C S Q2 * v_max_kin A C S Q2 / S / (S - Q2)).
Proof.
  cbv zeta. unfold CalcVphIR.
  destruct (GetHadStrFunc C Q2) as [F01 F02]. reflexivity.
Qed.

Lemma SigmaBrem_by_cos (v t p p' S Q2 : A) :
  fcos LM p = fcos LM p' ->
  SigmaBrem A C LM v t p S Q2 = SigmaBrem A C LM v t p' S Q2.
Proof. intro H. unfold SigmaBrem. rewrite H. reflexivity. Qed.

End Generic.

End Query.

Section Configuration.

Import OverR.
Local Open Scope R_scope.

(** X9: the Born output of [GetXSdQsq] is [SigmaBorn] at (S, Q2) whatever
    the configuration, and the non-radiative output depends on the
    configuration through v_min only: two generators with the same v_min,
    each with v_min <= v_cut, give the same value. *)
Theorem GetXSdQsq_configuration (C : cana.consts RA) (LM : libm RA)
    (Fn : cana.funs RA) (gen gen' : PRadEpElasGen RA) (S Q2 : R) :
  xs_born C LM Fn gen S Q2 = SigmaBorn C S Q2
  /\ (v_min gen = v_min gen' ->
      v_min gen <= v_cut gen -> v_min gen' <= v_cut gen' ->
      xs_nrad C LM Fn gen S Q2 = xs_nrad C LM Fn gen' S Q2).
Proof.
  split; [apply Query.xs_born_SigmaBorn |].
  intros E H H'. apply Query.xs_nrad_by_v1.
  rewrite !Kin.cut_v1_uncut by assumption. rewrite E. reflexivity.
Qed.

(** X9, for v_cut = 1000 against v_cut = 5000 at v_min = 1. *)
Lemma GetXSdQsq_configuration_witness :
  (v_min (gen_ex RA) = v_min (gen_wide RA)
   /\ v_min (gen_ex RA) <= v_cut (gen_ex RA)
   /\ v_min (gen_wide RA) <= v_cut (gen_wide RA))
  /\ xs_nrad (cana_std RA) libm_R (funs_any RA) (gen_ex RA)
       (S_ex RA) (Q2_ex RA)
     = xs_nrad (cana_std RA) libm_R (funs_any RA) (gen_wide RA)
         (S_ex RA) (Q2_ex RA).
Proof.
  assert (H1 : v_min (gen_ex RA) = v_min (gen_wide RA)) by reflexivity.
  assert (H2 : v_min (gen_ex RA) <= v_cut (gen_ex RA))
    by (Kin.ex_consts; lra).
  assert (H3 : v_min (gen_wide RA) <= v_cut (gen_wide RA))
    by (Kin.ex_consts; lra).
  split; [exact (conj H1 (conj H2 H3)) |].
  exact (proj2 (GetXSdQsq_configuration (cana_std RA) libm_R (funs_any RA)
                  (gen_ex RA) (gen_wide RA) (S_ex RA) (Q2_ex RA))
           H1 H2 H3).
Defined.

(** X10: for S, Q2 > 0 inside the kinematic region the limit of
    [GetXSdQsq] is 0.99 times the v_max that [CalcVphIR] computes for
    itself (the argument of the logarithm in its delta_inf), so
    0 < v_limit < v_max, and both cuts stay strictly below v_max. *)
Theorem v_limit_below_v_max (C : cana.consts RA) (LM : libm RA)
    (Fn : cana.funs RA) (gen : PRadEpElasGen RA) (S Q2 : R) :
  0 < S -> 0 < Q2 ->
  Q2 * (S + m2 RA C + M2 RA C) < S * S - 4 * m2 RA C * M2 RA C ->
  v_limit RA C S Q2 = 99 / 100 * v_max_kin RA C S Q2
  /\ 0 < v_limit RA C S Q2 < v_max_kin RA C S Q2
  /\ cut_v1 RA C gen S Q2 <= cut_v2 RA C gen S Q2 < v_max_kin RA C S Q2
  /\ (forall v,
        let sqrt_lm := R_sqrt.sqrt (Q2 * (Q2 + 4 / 1 * m2 RA C)) in
        let L_m := flog LM ((sqrt_lm + Q2) / (sqrt_lm - Q2)) / sqrt_lm in
        delta_inf (CalcVphIR C LM Fn S Q2 v)
        = ((Q2 + 2 / 1 * m2 RA C) * L_m - 1 / 1)
          * flog LM (v_max_kin RA C S Q2 * v_max_kin RA C S Q2
                     / S / (S - Q2))).
Proof.
  intros HS HQ Hk.
  pose proof (v_limit_pos C S Q2 HS HQ Hk) as Hl.
  assert (E : v_limit RA C S Q2 = 99 / 100 * v_max_kin RA C S Q2).
  { pose proof (m2_nonneg C) as Hm2.
    unfold v_limit, v_max_kin. num_R.
    set (r := R_sqrt.sqrt _).
    assert (Hr : 0 <= r) by apply sqrt_pos.
    field. nra. }
  split; [exact E |].
  assert (Hlt : v_limit RA C S Q2 < v_max_kin RA C S Q2) by lra.
  split; [lra |]. split.
  - unfold cut_v1, cut_v2. rewrite !clamp_self.
    split; [apply Rmin_r |].
    eapply Rle_lt_trans; [apply Rmin_r | exact Hlt].
  - intro v. cbv zeta.
    rewrite (Query.delta_inf_v_max RA C LM Fn S Q2 v). cbv zeta.
    num_R. reflexivity.
Qed.

(** X10, at a 1.1 GeV beam and Q2 = 1000 MeV^2. *)
Lemma v_limit_below_v_max_witness :
  (0 < S_ex RA /\ 0 < Q2_ex RA
   /\ Q2_ex RA * (S_ex RA + m2 RA (cana_std RA) + M2 RA (cana_std RA))
      < S_ex RA * S_ex RA - 4 * m2 RA (cana_std RA) * M2 RA (cana_std RA))
  /\ 0 < v_limit RA (cana_std RA) (S_ex RA) (Q2_ex RA)
       < v_max_kin RA (cana_std RA) (S_ex RA) (Q2_ex RA).
Proof.
  assert (H1 : 0 < S_ex RA) by (Kin.ex_consts; lra).
  assert (H2 : 0 < Q2_ex RA) by (Kin.ex_consts; lra).
  assert (H3 : Q2_ex RA * (S_ex RA + m2 RA (cana_std RA)
                           + M2 RA (cana_std RA))
               < S_ex RA * S_ex RA
                 - 4 * m2 RA (cana_std RA) * M2 RA (cana_std RA))
    by (Kin.ex_consts; lra).
  split; [exact (conj H1 (conj H2 H3)) |].
  exact (proj1 (proj2 (v_limit_below_v_max (cana_std RA) libm_R
                         (funs_any RA) (gen_ex RA) (S_ex RA) (Q2_ex RA)
                         H1 H2 H3))).
Defined.

(** X11: with the cosine of [libm_R], [SigmaBrem] is even and
    2 pi-periodic in the photon angle phik, which enters it through
    cos(phik) only. *)
Theorem SigmaBrem_phik_symmetry (C : cana.consts RA) (v t phik S Q2 : R) :
  SigmaBrem RA C libm_R v t (- phik) S Q2
  = SigmaBrem RA C libm_R v t phik S Q2
  /\ SigmaBrem RA C libm_R v t (phik + 2 * PI) S Q2
     = SigmaBrem RA C libm_R v t phik S Q2.
Proof.
  split; apply Query.SigmaBrem_by_cos;
    change (fcos libm_R) with Rtrigo_def.cos.
  - apply cos_neg.
  - num_R. rewrite cos_plus, cos_2PI, sin_2PI. ring.
Qed.

End Configuration.

(** ** Double-precision behaviour outside the physical region *)

Section OutOfRange.

Local Open Scope float_scope.

(** X13: in double arithmetic, for t < 0 both candidates of [vt_min] are
    NaN (they divide by sqrt(t)), both calls of std::max keep their first
    argument, and the result is the floor v. *)
Theorem vt_min_negative_t (C : cana.consts FA) (Q2 t v : float) :
  PrimFloat.ltb t 0 = true -> vt_min FA C Q2 t v = v.
Proof.
  intro H. pose proof (NaN.sqrt_negative t H) as Hs.
  unfold vt_min.
  change (fdiv FA) with PrimFloat.div.
  change (fsqrt FA) with PrimFloat.sqrt.
  apply NaN.std_max_nan_r.
  rewrite NaN.std_max_nan_r; apply NaN.nan_div_r; exact Hs.
Qed.

(** X13, at t = -5 with the floor v = 500. *)
Lemma vt_min_negative_t_witness :
  PrimFloat.ltb (t_neg FA) 0 = true
  /\ vt_min FA (cana_std FA) (Q2_ex FA) (t_neg FA) (v_ex FA) = v_ex FA.
Proof.
  assert (H : PrimFloat.ltb (t_neg FA) 0 = true) by (vm_compute; reflexivity).
  split; [exact H |].
  exact (vt_min_negative_t (cana_std FA) (Q2_ex FA) (t_neg FA) (v_ex FA) H).
Defined.

(** X14: in double arithmetic, below threshold (lambda_S = S^2 - 4 m^2 M^2
    negative) the non-radiative output of [GetXSdQsq] is NaN, whatever the
    configuration, the mathematical library and the helper functions:
    sqrt(lambda_S) reaches delta_VR, and the result, through arithmetic
    only. *)
Theorem nrad_below_threshold (C : cana.consts FA) (LM : libm FA)
    (Fn : cana.funs FA) (gen : PRadEpElasGen FA) (S Q2 : float) :
  PrimFloat.ltb (S * S - lit FA 4 * m2 FA C * M2 FA C) 0 = true ->
  Prim2SF (xs_nrad C LM Fn gen S Q2) = S754_nan.
Proof.
  intro H.
  pose proof (NaN.delta_VR_below_threshold C LM Fn S Q2
                (cut_v1 FA C gen S Q2) H) as Hd.
  unfold xs_nrad, GetXSdQsq. cbn [fst snd].
  set (r := CalcVphIR C LM Fn S Q2 (cut_v1 FA C gen S Q2)) in *.
  NaN.float_ops.
  apply NaN.nan_add_l, NaN.nan_add_l, NaN.nan_mul_l, NaN.nan_mul_r,
    NaN.nan_add_r, NaN.nan_mul_r, NaN.nan_sub_l, NaN.nan_add_l.
  exact Hd.
Qed.

(** X14, at S = 100 MeV^2, far below 2 m M. *)
Lemma nrad_below_threshold_witness :
  PrimFloat.ltb (S_low FA * S_low FA
                 - lit FA 4 * m2 FA (cana_std FA) * M2 FA (cana_std FA)) 0
  = true
  /\ Prim2SF (xs_nrad (cana_std FA) (libm_any FA) (funs_any FA) (gen_ex FA)
                (S_low FA) (Q2_ex FA)) = S754_nan.
Proof.
  assert (H : PrimFloat.ltb
                (S_low FA * S_low FA
                 - lit FA 4 * m2 FA (cana_std FA) * M2 FA (cana_std FA)) 0
              = true) by (vm_compute; reflexivity).
  split; [exact H |].
  exact (nrad_below_threshold (cana_std FA) (libm_any FA) (funs_any FA)
           (gen_ex FA) (S_low FA) (Q2_ex FA) H).
Defined.

End OutOfRange.
